(** * analyze_website.py: the extraction pipeline of the style guide generator

    A shallow embedding of [scripts/analyze_website.py].  The script is a
    handful of [re.findall] calls over the text of a page, followed by a
    little post-processing (upper-casing, de-duplication, truncation).  The
    development therefore has three layers:

    - [Chars]: the character classes of Python's [re] and [str] methods;
    - [Re]: a backtracking matcher for the regular-expression constructs
      that occur in the script, and [re.findall] on top of it;
    - the five functions of the script, written after the source.

    Text is modelled as [string], a sequence of 8-bit characters read as the
    code points U+0000..U+00FF; the character tables below are those of
    Python 3 on that range. *)

From Stdlib Require Import Ascii String NArith.
From stdpp Require Import gmap strings list fin_maps sorting.

Open Scope string_scope.
Open Scope list_scope.
Open Scope nat_scope.

(** ** Character classes *)

Module Chars.

Definition code (c : ascii) : N := N_of_ascii c.

Definition between (lo hi : N) (c : ascii) : bool :=
  ((lo <=? code c) && (code c <=? hi))%N.

(** [\d]: the decimal digits. *)
Definition is_digit (c : ascii) : bool := between 48 57 c.

(** [\s] and [str.isspace]. *)
Definition is_space (c : ascii) : bool :=
  between 9 13 c || between 28 32 c || (code c =? 133)%N || (code c =? 160)%N.

(** [\w]: alphanumeric characters and the underscore. *)
Definition is_word (c : ascii) : bool :=
  between 48 57 c || between 65 90 c || (code c =? 95)%N || between 97 122 c
  || (code c =? 170)%N || between 178 179 c || (code c =? 181)%N
  || between 185 186 c || between 188 190 c
  || between 192 214 c || between 216 246 c || between 248 255 c.

(** The characters of [[0-9A-Fa-f]]. *)
Definition is_hex (c : ascii) : bool :=
  between 48 57 c || between 65 70 c || between 97 102 c.

Definition shift (d : Z) (c : ascii) : ascii :=
  ascii_of_N (Z.to_N (Z.of_N (code c) + d)).

(** Simple lower-case mapping, as used by [re.IGNORECASE]. *)
Definition lower (c : ascii) : ascii :=
  if between 65 90 c || between 192 214 c || between 216 222 c
  then shift 32 c else c.

(** [str.upper] on one character.  Three characters of the range have an
    upper-case form outside it (U+00B5, U+00DF, U+00FF) and are left
    alone here; none of them is a hexadecimal digit, and [upper] is only
    applied to matches of the hex pattern. *)
Definition upper (c : ascii) : ascii :=
  if between 97 122 c || between 224 246 c || between 248 254 c
  then shift (-32) c else c.

End Chars.

(** ** Regular expressions *)

Module Re.

Inductive category := Digit | Space | Word.

(** Members of a bracketed set. *)
Inductive item :=
| One (c : ascii)
| Range (lo hi : ascii)
| Cat (k : category).

(** What matches exactly one character. *)
Inductive atom :=
| Lit (c : ascii)
| Set_ (negated : bool) (items : list item)
| Dot.

Inductive regex :=
| Eps
| Atom (a : atom)
| Boundary
| Seq (r1 r2 : regex)
| Maybe (r : regex)
| Repeat (greedy : bool) (lo : nat) (hi : option nat) (a : atom)
| Group (r : regex).

Record flags := { ignorecase : bool; dotall : bool }.

Definition no_flags := {| ignorecase := false; dotall := false |}.
Definition IGNORECASE := {| ignorecase := true; dotall := false |}.
Definition IGNORECASE_DOTALL := {| ignorecase := true; dotall := true |}.

Definition in_category (k : category) (c : ascii) : bool :=
  match k with
  | Digit => Chars.is_digit c
  | Space => Chars.is_space c
  | Word => Chars.is_word c
  end.

Definition in_item (i : item) (c : ascii) : bool :=
  match i with
  | One x => bool_decide (c = x)
  | Range lo hi => Chars.between (Chars.code lo) (Chars.code hi) c
  | Cat k => in_category k c
  end.

Definition in_items (its : list item) (c : ascii) : bool :=
  existsb (fun i => in_item i c) its.

Definition atom_ok (fl : flags) (a : atom) (c : ascii) : bool :=
  match a with
  | Lit x =>
      if ignorecase fl then bool_decide (Chars.lower c = Chars.lower x)
      else bool_decide (c = x)
  | Set_ neg its =>
      xorb neg (if ignorecase fl
                then in_items its (Chars.lower c) || in_items its (Chars.upper c)
                else in_items its c)
  | Dot => dotall fl || negb (bool_decide (c = "010"%char))
  end.

(** The matcher walks a cursor through the text: the characters to the
    left of the cursor (nearest first), those to the right, the number of
    characters taken since the match began, and the text of capture group 1
    when it has been closed. *)
Record cursor := Cursor {
  left_ : list ascii;
  right_ : list ascii;
  pos : nat;
  group1 : option (list ascii)
}.

Definition word_at (l : list ascii) : bool :=
  match l with
  | c :: _ => Chars.is_word c
  | [] => false
  end.

Definition at_boundary (cur : cursor) : bool :=
  xorb (word_at (left_ cur)) (word_at (right_ cur)).

Definition or_else {A} (x y : option A) : option A :=
  match x with
  | Some _ => x
  | None => y
  end.

Section Matcher.
Context {A : Type}.

Definition dec_hi (hi : option nat) : option nat := Nat.pred <$> hi.

Definition may_repeat (hi : option nat) : bool :=
  negb (bool_decide (hi = Some 0)).

(** [a{lo,hi}] for a one-character [a]: take another character first and
    stop only when that fails (greedy), or the other way round (lazy). *)
Fixpoint repeat_greedy (ok : ascii → bool) (lo : nat) (hi : option nat)
    (k : cursor → option A) (l r : list ascii) (n : nat)
    (g : option (list ascii)) : option A :=
  let stop := match lo with 0 => k (Cursor l r n g) | S _ => None end in
  match r with
  | c :: r' =>
      if ok c && may_repeat hi
      then or_else
             (repeat_greedy ok (Nat.pred lo) (dec_hi hi) k (c :: l) r' (S n) g)
             stop
      else stop
  | [] => stop
  end.

Fixpoint repeat_lazy (ok : ascii → bool) (lo : nat) (hi : option nat)
    (k : cursor → option A) (l r : list ascii) (n : nat)
    (g : option (list ascii)) : option A :=
  let stop := match lo with 0 => k (Cursor l r n g) | S _ => None end in
  or_else stop
    match r with
    | c :: r' =>
        if ok c && may_repeat hi
        then repeat_lazy ok (Nat.pred lo) (dec_hi hi) k (c :: l) r' (S n) g
        else None
    | [] => None
    end.

(** [run fl r k cur]: match [r] at [cur] and hand the cursor after the
    match to [k]; when [k] refuses, backtrack into [r]. *)
Fixpoint run (fl : flags) (r : regex) (k : cursor → option A)
    (cur : cursor) : option A :=
  match r with
  | Eps => k cur
  | Atom a =>
      match right_ cur with
      | c :: r' =>
          if atom_ok fl a c
          then k (Cursor (c :: left_ cur) r' (S (pos cur)) (group1 cur))
          else None
      | [] => None
      end
  | Boundary => if at_boundary cur then k cur else None
  | Seq r1 r2 => run fl r1 (run fl r2 k) cur
  | Maybe r1 => or_else (run fl r1 k cur) (k cur)
  | Repeat greedy lo hi a =>
      (if greedy then repeat_greedy else repeat_lazy)
        (atom_ok fl a) lo hi k (left_ cur) (right_ cur) (pos cur) (group1 cur)
  | Group r1 =>
      run fl r1
        (fun cur' =>
           let n := pos cur' - pos cur in
           k (Cursor (left_ cur') (right_ cur') (pos cur')
                     (Some (reverse (take n (left_ cur'))))))
        cur
  end.
End Matcher.

(** One attempt at one position. *)
Definition match_at (fl : flags) (r : regex) (l rest : list ascii)
    : option cursor :=
  run fl r Some (Cursor l rest 0 None).

Fixpoint has_group (r : regex) : bool :=
  match r with
  | Group _ => true
  | Seq r1 r2 => has_group r1 || has_group r2
  | Maybe r1 => has_group r1
  | _ => false
  end.

(** What [re.findall] reports for a match: the text of group 1 when the
    pattern has a group, the whole match otherwise. *)
Definition reported (r : regex) (end_ : cursor) : list ascii :=
  if has_group r then default [] (group1 end_)
  else reverse (take (pos end_) (left_ end_)).

(** The scan of [re.findall]: leftmost match first, then on from where it
    ended.  [skip] counts the characters of the last match that are still
    to be stepped over.  After an empty match the scan moves on by one
    character; no pattern of the script matches the empty string
    ([script_matches_nonempty]). *)
Fixpoint scan (fl : flags) (r : regex) (skip : nat) (l rest : list ascii)
    : list (list ascii) :=
  let next skip' :=
    match rest with
    | c :: rest' => scan fl r skip' (c :: l) rest'
    | [] => []
    end in
  match skip with
  | S n => next n
  | 0 =>
      match match_at fl r l rest with
      | Some end_ =>
          reported r end_ :: next (pos end_ - 1)
      | None => next 0
      end
  end.

Definition findall (r : regex) (s : string) (fl : flags) : list string :=
  string_of_list_ascii <$> scan fl r 0 [] (list_ascii_of_string s).

(** Pattern syntax.  A pattern is a sequence of parts; [then_] keeps the
    sequence nested to the right. *)
Fixpoint then_ (r1 r2 : regex) : regex :=
  match r1 with
  | Seq a b => Seq a (then_ b r2)
  | _ => Seq r1 r2
  end.

Fixpoint sequence (rs : list regex) : regex :=
  match rs with
  | [] => Eps
  | [r] => r
  | r :: rs' => then_ r (sequence rs')
  end.

Definition lit (s : string) : regex :=
  sequence (Atom ∘ Lit <$> list_ascii_of_string s).

Definition star (a : atom) := Repeat true 0 None a.
Definition plus (a : atom) := Repeat true 1 None a.
Definition opt (a : atom) := Repeat true 0 (Some 1) a.
Definition star_lazy (a : atom) := Repeat false 0 None a.
Definition counted (lo hi : nat) (a : atom) := Repeat true lo (Some hi) a.

Definition s_ := Set_ false [Cat Space].
Definition d_ := Set_ false [Cat Digit].
Definition w_ := Set_ false [Cat Word].

End Re.

(** ** The [str] methods the script calls *)

Module Str.

Definition chars (s : string) : list ascii := list_ascii_of_string s.
Definition of_chars (l : list ascii) : string := string_of_list_ascii l.

(** [s.upper()] *)
Definition upper (s : string) : string := of_chars (Chars.upper <$> chars s).

(** [s.replace(c, '')] for a one-character [c] *)
Definition remove (c : ascii) (s : string) : string :=
  of_chars (filter (λ x, x ≠ c) (chars s)).

Fixpoint lstrip (l : list ascii) : list ascii :=
  match l with
  | c :: l' => if Chars.is_space c then lstrip l' else l
  | [] => []
  end.

(** [s.strip()] *)
Definition strip (s : string) : string :=
  of_chars (reverse (lstrip (reverse (lstrip (chars s))))).

(** [sub in s] *)
Fixpoint contains (sub s : string) : bool :=
  String.prefix sub s ||
  match s with
  | String _ s' => contains sub s'
  | EmptyString => false
  end.

End Str.

(** ** The script *)

Import Re.

Definition hex_digit : atom := Set_ false [Range "0" "9"; Range "A" "F"; Range "a" "f"].
Definition not_char (c : ascii) : atom := Set_ true [One c].

(** [r'#[0-9A-Fa-f]{3,6}\b'] *)
Definition hex_pattern : regex :=
  sequence [lit "#"; counted 3 6 hex_digit; Boundary].

(** [r'rgba?\s*\(\s*\d+\s*,\s*\d+\s*,\s*\d+(?:\s*,\s*[\d.]+)?\s*\)'] *)
Definition rgb_pattern : regex :=
  sequence [lit "rgb"; opt (Lit "a"); star s_; lit "("; star s_; plus d_;
       star s_; lit ","; star s_; plus d_;
       star s_; lit ","; star s_; plus d_;
       Maybe (sequence [star s_; lit ","; star s_; plus (Set_ false [Cat Digit; One "."])]);
       star s_; lit ")"].

(** [r'font-family\s*:\s*([^;]+);'] *)
Definition font_pattern : regex :=
  sequence [lit "font-family"; star s_; lit ":"; star s_;
       Group (plus (not_char ";")); lit ";"].

(** [r'margin(?:-\w+)?\s*:\s*([^;]+);'] and its twin for [padding] *)
Definition spacing_pattern (property : string) : regex :=
  sequence [lit property; Maybe (sequence [lit "-"; plus w_]); star s_; lit ":"; star s_;
       Group (plus (not_char ";")); lit ";"].

Definition margin_pattern : regex := spacing_pattern "margin".
Definition padding_pattern : regex := spacing_pattern "padding".

(** [r'<tag[^>]*>.*?</tag>'] *)
Definition element_pattern (tag : string) : regex :=
  sequence [lit "<"; lit tag; star (not_char ">"); lit ">"; star_lazy Dot;
       lit "</"; lit tag; lit ">"].

Definition button_pattern : regex := element_pattern "button".
Definition form_pattern : regex := element_pattern "form".
Definition nav_pattern : regex := element_pattern "nav".

(** [str(level)] for the levels of [range(1, 7)] *)
Definition str_of_level (level : nat) : string :=
  String (ascii_of_nat (48 + level)) EmptyString.

(** [f'h{level}'] *)
Definition heading_key (level : nat) : string := "h" +:+ str_of_level level.

(** [f'<h{level}[^>]*>(.*?)</h{level}>'] *)
Definition heading_pattern (level : nat) : regex :=
  sequence [lit "<h"; lit (str_of_level level); star (not_char ">"); lit ">";
       Group (star_lazy Dot); lit "</h"; lit (str_of_level level); lit ">"].

(** Subscripting a dictionary raises [KeyError] on a missing key, and a
    method call on the wrong kind of value raises too: both are [None] here.

    [d[key].update(values)] and [d[key].add(value)] on a dictionary of sets: *)
Definition update (key : string) (values : list string)
    (d : gmap string (gset string)) : option (gmap string (gset string)) :=
  s ← d !! key; Some (<[ key := s ∪ list_to_set values ]> d).

Definition add (key : string) (value : string)
    (d : gmap string (gset string)) : option (gmap string (gset string)) :=
  s ← d !! key; Some (<[ key := s ∪ {[ value ]} ]> d).

Definition extract_colors_from_css (css_content : string)
    : option (gmap string (gset string)) :=
  let colors : gmap string (gset string) :=
    {[ "hex" := ∅; "rgb" := ∅; "rgba" := ∅ ]} in
  let hex_colors := findall hex_pattern css_content no_flags in
  colors ← update "hex" (Str.upper <$> hex_colors) colors;
  let rgb_colors := findall rgb_pattern css_content no_flags in
  foldl (λ state rgb,
           colors ← state;
           if Str.contains "rgba" rgb
           then add "rgba" rgb colors
           else add "rgb" rgb colors)
        (Some colors) rgb_colors.

Definition extract_fonts_from_css (css_content : string) : list string :=
  let fonts := findall font_pattern css_content IGNORECASE in
  foldl (λ cleaned_fonts font,
           let cleaned :=
             Str.strip (Str.remove "'" (Str.remove "034" font)) in
           if bool_decide (cleaned ∈ cleaned_fonts)
           then cleaned_fonts
           else cleaned_fonts ++ [cleaned])
        [] fonts.

Definition extract_spacing_values (css_content : string)
    : option (gmap string (gset string)) :=
  let spacing : gmap string (gset string) :=
    {[ "margins" := ∅; "paddings" := ∅ ]} in
  let margins := findall margin_pattern css_content IGNORECASE in
  spacing ← update "margins" margins spacing;
  let paddings := findall padding_pattern css_content IGNORECASE in
  update "paddings" paddings spacing.

(** Values of the dictionaries built by [analyze_html_structure].  A
    heading record maps [f'h{level}'] to a number and ['examples'] to a list
    of strings.  The component dictionary holds lists and numbers; a list
    holds matched fragments or heading records. *)
Inductive field :=
| Num (n : nat)
| Texts (l : list string).

Inductive elem :=
| Text (s : string)
| Dict (d : gmap string field).

Inductive component :=
| Items (l : list elem)
| Int (n : nat).

(** [components[key].append(d)]: a number has no [append]. *)
Definition append (key : string) (d : gmap string field)
    (components : gmap string component) : option (gmap string component) :=
  v ← components !! key;
  match v with
  | Items l => Some (<[ key := Items (l ++ [Dict d]) ]> components)
  | Int _ => None
  end.

Definition analyze_html_structure (html_content : string)
    : option (gmap string component) :=
  let components : gmap string component :=
    {[ "buttons" := Items []; "forms" := Items []; "navigation" := Items [];
       "headings" := Items [] ]} in
  let buttons := findall button_pattern html_content IGNORECASE_DOTALL in
  let components := <[ "buttons" := Items (Text <$> take 5 buttons) ]> components in
  let forms := findall form_pattern html_content IGNORECASE_DOTALL in
  let components := <[ "forms" := Int (length forms) ]> components in
  let navs := findall nav_pattern html_content IGNORECASE_DOTALL in
  let components := <[ "navigation" := Int (length navs) ]> components in
  foldl (λ state level,
           components ← state;
           let headings :=
             findall (heading_pattern level) html_content IGNORECASE_DOTALL in
           match headings with
           | [] => Some components
           | _ :: _ =>
               append "headings"
                 {[ heading_key level := Num (length headings);
                    "examples" := Texts (take 3 headings) ]}
                 components
           end)
        (Some components) (seq 1 6).

Record report := {
  url : string;
  domain : string;
  colors : gmap string (gset string);
  typography : gmap string (list string);
  spacing : gmap string (gset string);
  components : gmap string component;
  metadata : gmap string string
}.

(** The truth value of an optional string argument: [None] and [''] are
    false. *)
Definition truthy (content : option string) : option string :=
  match content with
  | Some s => if bool_decide (s = EmptyString) then None else Some s
  | None => None
  end.

(** The three assignments under [if css_content:]. *)
Definition with_css (design_system : report) (css_content : string)
    : option report :=
  colors' ← extract_colors_from_css css_content;
  let fonts := extract_fonts_from_css css_content in
  spacing' ← extract_spacing_values css_content;
  Some {| url := design_system.(url);
          domain := design_system.(domain);
          colors := colors';
          typography := <[ "fonts" := fonts ]> design_system.(typography);
          spacing := spacing';
          components := design_system.(components);
          metadata := design_system.(metadata) |}.

(** The assignment under [if html_content:]. *)
Definition with_html (design_system : report) (html_content : string)
    : option report :=
  components' ← analyze_html_structure html_content;
  Some {| url := design_system.(url);
          domain := design_system.(domain);
          colors := design_system.(colors);
          typography := design_system.(typography);
          spacing := design_system.(spacing);
          components := components';
          metadata := design_system.(metadata) |}.

Section Orchestrator.
(** [urlparse(url).netloc], from the standard library: taken as given.  On
    a malformed URL, such as [http://[], [urlparse] raises [ValueError]: that
    is [None] here.  The call is made while the dictionary is built, before
    either guard. *)
Variable netloc : string → option string.

Definition analyze_website (url : string)
    (html_content css_content : option string) : option report :=
  location ← netloc url;
  let design_system :=
    {| url := url;
       domain := location;
       colors := ∅;
       typography := ∅;
       spacing := ∅;
       components := ∅;
       metadata := {[ "analyzed_at" := "timestamp"; "version" := "1.0" ]} |} in
  design_system ←
    match truthy css_content with
    | Some css_content => with_css design_system css_content
    | None => Some design_system
    end;
  match truthy html_content with
  | Some html_content => with_html design_system html_content
  | None => Some design_system
  end.
End Orchestrator.

(** ** Specification vocabulary *)

Module ReSpec.
Import Re.

Definition within (lo : nat) (hi : option nat) (n : nat) : Prop :=
  lo ≤ n ∧ match hi with Some h => n ≤ h | None => True end.

(** [lang fl r l w rest]: between the left context [l] (nearest character
    first) and the right context [rest], [r] can match the word [w]. *)
Fixpoint lang (fl : flags) (r : regex) (l w rest : list ascii) : Prop :=
  match r with
  | Eps => w = []
  | Atom a => ∃ c, w = [c] ∧ atom_ok fl a c = true
  | Boundary => w = [] ∧ xorb (word_at l) (word_at rest) = true
  | Seq r1 r2 =>
      ∃ w1 w2, w = w1 ++ w2 ∧ lang fl r1 l w1 (w2 ++ rest)
               ∧ lang fl r2 (reverse w1 ++ l) w2 rest
  | Maybe r1 => w = [] ∨ lang fl r1 l w rest
  | Repeat _ lo hi a =>
      within lo hi (length w) ∧ Forall (λ c, atom_ok fl a c = true) w
  | Group r1 => lang fl r1 l w rest
  end.

(** The one-character matchers of a pattern. *)
Fixpoint atoms (r : regex) : list atom :=
  match r with
  | Eps | Boundary => []
  | Atom a | Repeat _ _ _ a => [a]
  | Seq r1 r2 => atoms r1 ++ atoms r2
  | Maybe r1 | Group r1 => atoms r1
  end.

(** Some matcher of the pattern accepts [c]. *)
Definition accepts (fl : flags) (r : regex) (c : ascii) : bool :=
  existsb (λ a, atom_ok fl a c) (atoms r).

(** The pattern cannot match without taking the literal character [c]. *)
Fixpoint mandatory (c : ascii) (r : regex) : bool :=
  match r with
  | Atom (Lit x) | Repeat _ (S _) _ (Lit x) => bool_decide (x = c)
  | Seq r1 r2 => mandatory c r1 || mandatory c r2
  | Group r1 => mandatory c r1
  | _ => false
  end.

(** What both repetition loops guarantee when they succeed. *)
Definition repeat_result {A} (ok : ascii → bool) (lo : nat) (hi : option nat)
    (k : cursor → option A) (l r : list ascii) (n : nat)
    (g : option (list ascii)) (res : A) : Prop :=
  ∃ w rest, r = w ++ rest ∧ within lo hi (length w)
            ∧ Forall (λ c, ok c = true) w
            ∧ k (Cursor (reverse w ++ l) rest (n + length w) g) = Some res.

End ReSpec.
Import ReSpec.

(** An occurrence in [text] of [#] and 3 to 6 hexadecimal digits with a word
    boundary after the last digit. *)
Definition hex_occurrence (text m : list ascii) : Prop :=
  ∃ pre ds post,
    text = pre ++ "#"%char :: ds ++ post
    ∧ 3 ≤ length ds ≤ 6
    ∧ Forall (λ c, Chars.is_hex c = true) ds
    ∧ word_at post = false
    ∧ m = "#"%char :: ds.

Definition says_rgba (m : string) : Prop := Str.contains "rgba" m = true.
Definition route (rgb : string) (colors : gmap string (gset string)) :=
  if Str.contains "rgba" rgb then add "rgba" rgb colors else add "rgb" rgb colors.

(** [result[key]] on what an extractor returned *)
Definition get (key : string) (result : option (gmap string (gset string)))
    : option (gset string) :=
  d ← result; d !! key.

Definition hex_digits (ds : string) : Prop :=
  Forall (λ c, Chars.is_hex c = true) (Str.chars ds).

(** [m] occurs in [css] as [#] and 3 to 6 hexadecimal digits, and what
    follows does not start with a word character. *)
Definition hex_literal (css m : string) : Prop :=
  ∃ pre ds post,
    css = pre +:+ "#" +:+ ds +:+ post
    ∧ 3 ≤ String.length ds ≤ 6
    ∧ hex_digits ds
    ∧ word_at (Str.chars post) = false
    ∧ m = "#" +:+ ds.

(** What the loop of [extract_fonts_from_css] makes of one captured value. *)
Definition clean (font : string) : string :=
  Str.strip (Str.remove "'" (Str.remove "034" font)).

(** The distinct members of a list, in order of first appearance. *)
Fixpoint first_seen (l : list string) : list string :=
  match l with
  | [] => []
  | x :: l' => x :: filter (λ y, y ≠ x) (first_seen l')
  end.

(** [s] between double quotes. *)
Definition quoted (s : string) : string := String "034" (s +:+ String "034" EmptyString).

(** No white space at either end. *)
Definition trimmed (s : string) : Prop :=
  (∀ c, head (Str.chars s) = Some c → Chars.is_space c = false)
  ∧ (∀ c, last (Str.chars s) = Some c → Chars.is_space c = false).

(** The declaration [font-family: "Helvetica Neue", Arial, sans-serif;]. *)
Definition helvetica_declaration : string :=
  "font-family: " +:+ quoted "Helvetica Neue" +:+ ", Arial, sans-serif;".

(** The matches of the heading pattern of one level, and the record that
    [analyze_html_structure] appends for a level that has some. *)
Definition headings_at (html : string) (level : nat) : list string :=
  findall (heading_pattern level) html IGNORECASE_DOTALL.

Definition heading_record (html : string) (level : nat) : gmap string field :=
  {[ heading_key level := Num (length (headings_at html level));
     "examples" := Texts (take 3 (headings_at html level)) ]}.

(** [n] copies of [s], one after the other. *)
Fixpoint copies (n : nat) (s : string) : string :=
  match n with
  | 0 => EmptyString
  | S n' => s +:+ copies n' s
  end.

(** What the extractors return when nothing matches. *)
Definition no_colors : gmap string (gset string) :=
  {[ "hex" := ∅; "rgb" := ∅; "rgba" := ∅ ]}.

Definition no_spacing : gmap string (gset string) :=
  {[ "margins" := ∅; "paddings" := ∅ ]}.

Definition no_components : gmap string component :=
  {[ "buttons" := Items []; "forms" := Int 0; "navigation" := Int 0;
     "headings" := Items [] ]}.

(** The patterns of the script, each with a character it cannot match
    without. *)
Definition script_patterns : list (regex * ascii) :=
  [(hex_pattern, "#"%char); (rgb_pattern, "("%char); (font_pattern, ";"%char);
   (margin_pattern, ";"%char); (padding_pattern, ";"%char);
   (button_pattern, "<"%char); (form_pattern, "<"%char); (nav_pattern, "<"%char)]
  ++ ((λ level, (heading_pattern level, "<"%char)) <$> seq 1 6).
(** ** Vocabulary of the further properties *)

(** [x] is a contiguous part of [s]. *)
Definition substring (x s : string) : Prop := ∃ a b, s = a +:+ x +:+ b.

(** The members of [ms] stand in [text] one after the other, without
    overlap. *)
Fixpoint in_order (ms : list (list ascii)) (text : list ascii) : Prop :=
  match ms with
  | [] => True
  | m :: ms' => ∃ a b, text = a ++ m ++ b ∧ in_order ms' b
  end.

Definition strings_in_order (ms : list string) (text : string) : Prop :=
  in_order (Str.chars <$> ms) (Str.chars text).

(** The pattern cannot match without closing its group. *)
Fixpoint must_capture (r : regex) : bool :=
  match r with
  | Group _ => true
  | Seq r1 r2 => must_capture r1 || must_capture r2
  | _ => false
  end.

(** The bodies of the groups of a pattern. *)
Fixpoint group_bodies (r : regex) : list regex :=
  match r with
  | Group r1 => [r1]
  | Seq r1 r2 => group_bodies r1 ++ group_bodies r2
  | Maybe r1 => group_bodies r1
  | _ => []
  end.

(** [u] is a text that a group of the pattern can match. *)
Definition captured (fl : flags) (r : regex) (u : list ascii) : Prop :=
  ∃ r1 l rest, r1 ∈ group_bodies r ∧ lang fl r1 l u rest.

(** How the group text [g'] after a match of the word [w] relates to the
    group text [g] before it. *)
Definition capture_after (fl : flags) (r : regex) (g g' : option (list ascii))
    (w : list ascii) : Prop :=
  (must_capture r = false ∧ g' = g)
  ∨ (∃ u a b, g' = Some u ∧ w = a ++ u ++ b ∧ captured fl r u).

(** The least number of characters a match of the pattern takes. *)
Fixpoint min_length (r : regex) : nat :=
  match r with
  | Eps | Boundary | Maybe _ => 0
  | Atom _ => 1
  | Seq r1 r2 => min_length r1 + min_length r2
  | Repeat _ lo _ _ => lo
  | Group r1 => min_length r1
  end.

(** The pattern is a sequence that ends with the literal character [c]. *)
Fixpoint ends_with (c : ascii) (r : regex) : bool :=
  match r with
  | Atom (Lit x) => bool_decide (x = c)
  | Seq _ r2 => ends_with c r2
  | _ => false
  end.

(** [s] with every letter in lower case, and texts that differ in the case
    of letters only. *)
Definition lowered (s : string) : string :=
  Str.of_chars (Chars.lower <$> Str.chars s).

Definition same_up_to_case (s1 s2 : string) : Prop := lowered s1 = lowered s2.

(** The cursor over the lowered text. *)
Definition lower_cursor (cur : cursor) : cursor :=
  Cursor (Chars.lower <$> left_ cur) (Chars.lower <$> right_ cur) (pos cur)
         (fmap (M:=list) Chars.lower <$> group1 cur).

(** No matcher of the pattern tells a letter from its lower-case form. *)
Definition case_blind (fl : flags) (r : regex) : Prop :=
  ∀ a c, a ∈ atoms r → atom_ok fl a (Chars.lower c) = atom_ok fl a c.

(** * Properties *)

#[local] Set Warnings "-clear-no-such-hyp".

(** Evaluate the [re.findall] calls on closed texts that occur in the goal. *)
Ltac eval_findall :=
  repeat match goal with
  | |- context [findall ?r ?s ?fl] =>
      let v := eval vm_compute in (findall r s fl) in
      let E := fresh in
      assert (E : findall r s fl = v) by (vm_compute; reflexivity);
      rewrite E; clear E
  end.

(** ** The matcher finds only what the pattern describes *)

Section Soundness.
Context {A : Type}.
Implicit Types (k : cursor → option A) (l w rest : list ascii).

Lemma or_else_Some (x y : option A) res :
  or_else x y = Some res → x = Some res ∨ (x = None ∧ y = Some res).
Proof. destruct x; simpl; eauto. Qed.

Lemma within_zero hi : within 0 hi 0.
Proof. split; [done|]. destruct hi; lia. Qed.

Lemma within_pred lo hi n :
  may_repeat hi = true → within (Nat.pred lo) (dec_hi hi) n → within lo hi (S n).
Proof.
  unfold within, may_repeat, dec_hi. intros Hm [H1 H2]. split; [lia|].
  destruct hi as [[|h]|]; simpl in *; try done; lia.
Qed.

Lemma repeat_result_stop ok hi k l r n g res :
  k (Cursor l r n g) = Some res → repeat_result ok 0 hi k l r n g res.
Proof.
  intros Hk. exists [], r. simpl. rewrite Nat.add_0_r.
  split; [done|]. split; [apply within_zero|]. by split.
Qed.

Lemma repeat_result_more ok lo hi k l c r n g res :
  ok c = true → may_repeat hi = true →
  repeat_result ok (Nat.pred lo) (dec_hi hi) k (c :: l) r (S n) g res →
  repeat_result ok lo hi k l (c :: r) n g res.
Proof.
  intros Hc Hm (w & rest & -> & Hw & Hall & Hk).
  exists (c :: w), rest. split; [done|]. split; [by apply within_pred|].
  split; [by constructor|].
  rewrite reverse_cons, <-app_assoc. simpl. by rewrite Nat.add_succ_r.
Qed.

Lemma repeat_greedy_sound ok lo hi k l r n g res :
  repeat_greedy ok lo hi k l r n g = Some res →
  repeat_result ok lo hi k l r n g res.
Proof.
  revert lo hi l n. induction r as [|c r IH]; intros lo hi l n H; simpl in H.
  - destruct lo; [by apply repeat_result_stop|done].
  - destruct (ok c && may_repeat hi) eqn:E.
    + apply andb_true_iff in E as [Hc Hm].
      apply or_else_Some in H as [H|[_ H]].
      * by apply repeat_result_more, IH.
      * destruct lo; [by apply repeat_result_stop|done].
    + destruct lo; [by apply repeat_result_stop|done].
Qed.

Lemma repeat_lazy_sound ok lo hi k l r n g res :
  repeat_lazy ok lo hi k l r n g = Some res →
  repeat_result ok lo hi k l r n g res.
Proof.
  revert lo hi l n. induction r as [|c r IH]; intros lo hi l n H; simpl in H;
    apply or_else_Some in H as [H|[_ H]].
  - destruct lo; [by apply repeat_result_stop|done].
  - done.
  - destruct lo; [by apply repeat_result_stop|done].
  - destruct (ok c && may_repeat hi) eqn:E; [|done].
    apply andb_true_iff in E as [Hc Hm]. by apply repeat_result_more, IH.
Qed.
End Soundness.

Lemma run_sound {A} fl r : ∀ (k : cursor → option A) l right n g res,
  run fl r k (Cursor l right n g) = Some res →
  ∃ w rest g', right = w ++ rest ∧ lang fl r l w rest
               ∧ k (Cursor (reverse w ++ l) rest (n + length w) g') = Some res.
Proof.
  revert A. induction r as [|a| |r1 IH1 r2 IH2|r1 IH1|greedy lo hi a|r1 IH1];
    intros A k l right n g res H; cbn [run left_ right_ pos group1] in H.
  - exists [], right, g. simpl. by rewrite Nat.add_0_r.
  - destruct right as [|c right]; [done|]. destruct (atom_ok fl a c) eqn:E; [|done].
    exists [c], right, g. split; [done|]. split; [simpl; eauto|].
    simpl. by rewrite Nat.add_1_r.
  - destruct (at_boundary _) eqn:E; [|done].
    exists [], right, g. simpl. by rewrite Nat.add_0_r.
  - apply IH1 in H as (w1 & rest1 & g1 & -> & H1 & H).
    apply IH2 in H as (w2 & rest & g2 & -> & H2 & H).
    exists (w1 ++ w2), rest, g2. split; [by rewrite app_assoc|].
    split; [simpl; eauto|].
    by rewrite reverse_app, <-app_assoc, length_app, Nat.add_assoc.
  - apply or_else_Some in H as [H|[_ H]].
    + apply IH1 in H as (w & rest & g' & -> & H1 & H). exists w, rest, g'. simpl. auto.
    + exists [], right, g. simpl. rewrite Nat.add_0_r. auto.
  - assert (repeat_result (atom_ok fl a) lo hi k l right n g res)
      as (w & rest & ? & ? & ? & ?).
    { destruct greedy; [by apply repeat_greedy_sound|by apply repeat_lazy_sound]. }
    exists w, rest, g. simpl. auto.
  - apply IH1 in H as (w & rest & g' & -> & H1 & H). cbn [left_ right_ pos] in H.
    eexists w, rest, _. eauto.
Qed.

Lemma match_at_sound fl r l right end_ :
  match_at fl r l right = Some end_ →
  ∃ w, right = w ++ right_ end_ ∧ lang fl r l w (right_ end_)
       ∧ left_ end_ = reverse w ++ l ∧ pos end_ = length w.
Proof.
  intros H. apply run_sound in H as (w & rest & g' & -> & Hl & [= <-]).
  by exists w.
Qed.

Lemma lang_accepts fl r : ∀ l w rest,
  lang fl r l w rest → Forall (λ c, accepts fl r c = true) w.
Proof.
  unfold accepts.
  induction r as [|a| |r1 IH1 r2 IH2|r1 IH1|greedy lo hi a|r1 IH1];
    intros l w rest H; cbn [lang atoms] in *.
  - by subst.
  - destruct H as (c & -> & Hc). apply Forall_singleton. simpl. by rewrite Hc.
  - by destruct H as [-> _].
  - destruct H as (w1 & w2 & -> & H1 & H2). apply Forall_app. split.
    + eapply Forall_impl; [by eapply IH1|]. intros c Hc. cbv beta in *.
      rewrite existsb_app, Hc. done.
    + eapply Forall_impl; [by eapply IH2|]. intros c Hc. cbv beta in *.
      rewrite existsb_app, Hc. by rewrite orb_true_r.
  - destruct H as [->|H]; [done|by eapply IH1].
  - destruct H as [_ H]. eapply Forall_impl; [done|]. intros c Hc. simpl.
    by rewrite Hc.
  - by eapply IH1.
Qed.

(** ** What [re.findall] reports *)

Lemma scan_nil fl r l :
  scan fl r 0 l []
  = match match_at fl r l [] with
    | Some end_ => [reported r end_]
    | None => []
    end.
Proof. reflexivity. Qed.

Lemma scan_cons fl r l c rest :
  scan fl r 0 l (c :: rest)
  = match match_at fl r l (c :: rest) with
    | Some end_ => reported r end_ :: scan fl r (pos end_ - 1) (c :: l) rest
    | None => scan fl r 0 (c :: l) rest
    end.
Proof. reflexivity. Qed.

Lemma scan_skip fl r n l c rest :
  scan fl r (S n) l (c :: rest) = scan fl r n (c :: l) rest.
Proof. reflexivity. Qed.

Lemma findall_eq r css fl :
  findall r css fl = Str.of_chars <$> scan fl r 0 [] (Str.chars css).
Proof. reflexivity. Qed.

Lemma reported_whole r l w rest g :
  has_group r = false →
  reported r (Cursor (reverse w ++ l) rest (length w) g) = w.
Proof.
  unfold reported. intros ->. simpl.
  rewrite <-(length_reverse w). by rewrite take_app_length, reverse_involutive.
Qed.

(** Whatever [re.findall] reports was matched somewhere in the text. *)
Lemma scan_sound fl r right : ∀ skip l m,
  m ∈ scan fl r skip l right →
  ∃ pre rest end_,
    right = pre ++ rest
    ∧ match_at fl r (reverse pre ++ l) rest = Some end_
    ∧ m = reported r end_.
Proof.
  assert (Hshift : ∀ c l m right,
    (∃ pre rest end_, right = pre ++ rest
       ∧ match_at fl r (reverse pre ++ c :: l) rest = Some end_
       ∧ m = reported r end_) →
    ∃ pre rest end_, c :: right = pre ++ rest
       ∧ match_at fl r (reverse pre ++ l) rest = Some end_
       ∧ m = reported r end_).
  { intros c l m ? (pre & rest & end_ & -> & ? & ?). exists (c :: pre), rest, end_.
    by rewrite reverse_cons, <-app_assoc. }
  induction right as [|c right IH]; intros skip l m H.
  - destruct skip; [rewrite scan_nil in H|by apply elem_of_nil in H].
    destruct (match_at _ _ _ _) as [end_|] eqn:E; [|by apply elem_of_nil in H].
    apply list_elem_of_singleton in H as ->. by exists [], [], end_.
  - destruct skip as [|n]; [rewrite scan_cons in H|rewrite scan_skip in H; by eauto].
    destruct (match_at _ _ _ _) as [end_|] eqn:E; [|by eauto].
    apply elem_of_cons in H as [->|H]; [|by eauto].
    by exists [], (c :: right), end_.
Qed.

(** A match that starts at an earlier position stops before a character
    that only the first matcher of the pattern accepts. *)
Lemma no_overlap fl a0 r' c pre2 right2 l end_ :
  accepts fl r' c = false →
  pre2 ≠ [] →
  match_at fl (Seq (Atom a0) r') l (pre2 ++ c :: right2) = Some end_ →
  pos end_ ≤ length pre2.
Proof.
  intros Hc Hne (w & Hw & Hl & _ & ->)%match_at_sound.
  destruct (decide (length w ≤ length pre2)) as [|Hlong]; [done|exfalso].
  cbn [lang] in Hl. destruct Hl as (w1 & w2 & -> & (c0 & -> & _) & H2).
  apply lang_accepts in H2.
  assert (c ∈ w2) as Hin.
  { destruct pre2 as [|p pre2]; [done|]. simpl in Hw. injection Hw as -> Hw.
    simpl in Hlong.
    assert (drop (length pre2) w2 ≠ []) as Hd.
    { intros Hd%(f_equal length). rewrite length_drop in Hd. simpl in Hd. lia. }
    apply (f_equal (drop (length pre2))) in Hw.
    rewrite drop_app_length, drop_app_le in Hw by lia.
    destruct (drop (length pre2) w2) as [|d ds] eqn:E; [done|].
    simpl in Hw. injection Hw as -> _.
    rewrite <-(take_drop (length pre2) w2), E. set_solver. }
  rewrite Forall_forall in H2. apply H2 in Hin. congruence.
Qed.

(** [re.findall] reports every match whose first character no earlier match
    can run over. *)
Lemma scan_finds fl a0 r' c right2 end_ : ∀ pre skip l,
  accepts fl r' c = false →
  skip ≤ length pre →
  match_at fl (Seq (Atom a0) r') (reverse pre ++ l) (c :: right2) = Some end_ →
  reported (Seq (Atom a0) r') end_
  ∈ scan fl (Seq (Atom a0) r') skip l (pre ++ c :: right2).
Proof.
  intros pre skip l Hc. revert skip l.
  induction pre as [|p pre IH]; intros skip l Hskip Hm; cbn [app] in *.
  - assert (skip = 0) as -> by (simpl in Hskip; lia).
    rewrite scan_cons. simpl in Hm. rewrite Hm. apply elem_of_cons. by left.
  - rewrite reverse_cons, <-app_assoc in *. cbn [app] in *.
    destruct skip as [|n]; [rewrite scan_cons|rewrite scan_skip].
    2:{ apply IH; [simpl in Hskip; lia|done]. }
    destruct (match_at _ _ l _) as [end'|] eqn:E.
    + apply elem_of_cons. right. apply IH; [|done].
      apply (no_overlap fl a0 r' c (p :: pre)) in E; [|done|done].
      simpl in E. lia.
    + apply IH; [lia|done].
Qed.

(** ** The hex pattern *)

Lemma repeat_greedy_max {A} ok lo hi (k : cursor → option A) w : ∀ l rest n g res,
  Forall (λ c, ok c = true) w →
  within lo hi (length w) →
  hi = Some (length w) ∨ match rest with c :: _ => ok c = false | [] => True end →
  k (Cursor (reverse w ++ l) rest (n + length w) g) = Some res →
  repeat_greedy ok lo hi k l (w ++ rest) n g = Some res.
Proof.
  revert lo hi. induction w as [|c w IH];
    intros lo hi l rest n g res Hall [Hlo Hhi] Hend Hk.
  - simpl in *. rewrite Nat.add_0_r in Hk. assert (lo = 0) as -> by lia.
    destruct rest as [|c rest]; simpl; [done|].
    destruct Hend as [-> | ->]; simpl; [|done]. by rewrite andb_false_r.
  - apply Forall_cons in Hall as [Hc Hall]. simpl. rewrite Hc. simpl.
    assert (may_repeat hi = true) as ->.
    { unfold may_repeat. destruct hi as [[|h]|]; simpl in *; try done. lia. }
    erewrite IH; [done|done| | |].
    + unfold within, dec_hi. split; [simpl in *; lia|].
      destruct hi; simpl in *; [lia|done].
    + destruct Hend as [-> | ?]; [left|by right]. done.
    + rewrite reverse_cons, <-app_assoc in Hk. simpl in Hk.
      by rewrite Nat.add_succ_r in Hk.
Qed.

Lemma hex_digit_ok c : atom_ok no_flags hex_digit c = Chars.is_hex c.
Proof.
  unfold atom_ok, hex_digit, in_items, Chars.is_hex. simpl.
  by rewrite orb_false_r, orb_assoc.
Qed.

Lemma hex_pattern_eq :
  hex_pattern
  = Seq (Atom (Lit "#")) (Seq (Repeat true 3 (Some 6) hex_digit) Boundary).
Proof. reflexivity. Qed.

Lemma lit_ok c x : atom_ok no_flags (Lit x) c = true → c = x.
Proof. simpl. by intros ?%bool_decide_eq_true. Qed.

Lemma hex_is_word c : Chars.is_hex c = true → Chars.is_word c = true.
Proof.
  unfold Chars.is_hex, Chars.is_word, Chars.between.
  generalize (Chars.code c). intros n.
  rewrite !orb_true_iff, !andb_true_iff, !N.leb_le. rewrite !N.eqb_eq. lia.
Qed.

Lemma word_at_reverse_hex ds l :
  ds ≠ [] → Forall (λ c, Chars.is_hex c = true) ds → word_at (reverse ds ++ l) = true.
Proof.
  intros Hne Hall. destruct ds as [|d ds _] using rev_ind; [done|].
  rewrite reverse_snoc. simpl. apply hex_is_word.
  apply Forall_app in Hall as [_ Hd]. by apply Forall_inv in Hd.
Qed.

Lemma match_at_hex_sound l right end_ :
  match_at no_flags hex_pattern l right = Some end_ →
  ∃ ds post,
    right = "#"%char :: ds ++ post
    ∧ 3 ≤ length ds ≤ 6
    ∧ Forall (λ c, Chars.is_hex c = true) ds
    ∧ word_at post = false
    ∧ reported hex_pattern end_ = "#"%char :: ds.
Proof.
  intros H. apply run_sound in H as (w & rest & g' & -> & Hl & [= <-]).
  rewrite hex_pattern_eq in *. cbn [lang] in Hl.
  destruct Hl as (w1 & w2 & -> & (c & -> & Hc) & w3 & w4 & -> & Hr & -> & Hb).
  apply lit_ok in Hc as ->. destruct Hr as [[Hlo Hhi] Hall].
  rewrite app_nil_r in *.
  assert (Forall (λ c, Chars.is_hex c = true) w3) as Hhex.
  { eapply Forall_impl; [done|]. intros c. cbv beta. by rewrite hex_digit_ok. }
  exists w3, rest. split; [done|]. split; [done|]. split; [done|]. split.
  - rewrite word_at_reverse_hex in Hb; [|by intros ->; simpl in *; lia|done].
    by destruct (word_at rest).
  - by apply reported_whole.
Qed.

Lemma not_word_not_hex post :
  word_at post = false →
  match post with c :: _ => Chars.is_hex c = false | [] => True end.
Proof.
  destruct post as [|c post]; [done|]. simpl. intros Hw.
  destruct (Chars.is_hex c) eqn:E; [|done]. apply hex_is_word in E. congruence.
Qed.

Lemma match_at_hex_complete l ds post :
  3 ≤ length ds ≤ 6 →
  Forall (λ c, Chars.is_hex c = true) ds →
  word_at post = false →
  match_at no_flags hex_pattern l ("#"%char :: ds ++ post)
  = Some (Cursor (reverse ("#"%char :: ds) ++ l) post (length ("#"%char :: ds)) None).
Proof.
  intros Hlen Hall Hpost. unfold match_at. rewrite hex_pattern_eq.
  cbn [run right_ left_ pos group1].
  change (atom_ok no_flags (Lit "#") "#") with true. cbn iota.
  apply repeat_greedy_max.
  - eapply Forall_impl; [done|]. intros c. cbv beta. by rewrite hex_digit_ok.
  - split; [lia|]. simpl. lia.
  - right. apply not_word_not_hex in Hpost. destruct post; [done|].
    by rewrite hex_digit_ok.
  - unfold at_boundary. cbn [left_ right_]. rewrite Hpost.
    rewrite word_at_reverse_hex; [|by intros ->; simpl in *; lia|done].
    cbn [xorb]. by rewrite reverse_cons, <-app_assoc.
Qed.

Lemma scan_hex right m :
  m ∈ scan no_flags hex_pattern 0 [] right ↔ hex_occurrence right m.
Proof.
  split.
  - intros (pre & rest & end_ & -> & E & ->)%scan_sound.
    apply match_at_hex_sound in E as (ds & post & -> & Hlen & Hall & Hpost & Hm).
    by exists pre, ds, post.
  - intros (pre & ds & post & -> & Hlen & Hall & Hpost & ->).
    pose proof (match_at_hex_complete (reverse pre ++ []) ds post Hlen Hall Hpost) as E.
    rewrite hex_pattern_eq in *.
    apply (scan_finds no_flags _ _ _ _ _ pre 0 []) in E; [|done|lia].
    by rewrite reported_whole in E.
Qed.

(** ** The dictionaries in closed form *)

Lemma three_sets_eq (h r a h' r' a' : gset string) :
  h = h' → r = r' → a = a' →
  ({[ "hex" := h; "rgb" := r; "rgba" := a ]} : gmap string (gset string))
  = {[ "hex" := h'; "rgb" := r'; "rgba" := a' ]}.
Proof. by intros -> -> ->. Qed.

Lemma add_rgb m (h r a : gset string) :
  add "rgb" m {[ "hex" := h; "rgb" := r; "rgba" := a ]}
  = Some {[ "hex" := h; "rgb" := r ∪ {[ m ]}; "rgba" := a ]}.
Proof.
  reflexivity.
Qed.

Lemma add_rgba m (h r a : gset string) :
  add "rgba" m {[ "hex" := h; "rgb" := r; "rgba" := a ]}
  = Some {[ "hex" := h; "rgb" := r; "rgba" := a ∪ {[ m ]} ]}.
Proof.
  reflexivity.
Qed.

Lemma update_hex ms (h r a : gset string) :
  update "hex" ms {[ "hex" := h; "rgb" := r; "rgba" := a ]}
  = Some {[ "hex" := h ∪ list_to_set ms; "rgb" := r; "rgba" := a ]}.
Proof. reflexivity. Qed.

Lemma route_fold ms : ∀ h r a : gset string,
  foldl (λ state rgb, colors ← state; route rgb colors)
        (Some {[ "hex" := h; "rgb" := r; "rgba" := a ]}) ms
  = Some {[ "hex" := h;
            "rgb" := r ∪ list_to_set (filter (λ m, ¬ says_rgba m) ms);
            "rgba" := a ∪ list_to_set (filter says_rgba ms) ]}.
Proof.
  induction ms as [|m ms IH]; intros h r a.
  - simpl. f_equal. apply three_sets_eq; set_solver.
  - cbn [foldl mbind option_bind]. unfold route at 2, says_rgba.
    destruct (Str.contains "rgba" m) eqn:E.
    + rewrite add_rgba, IH. f_equal.
      rewrite filter_cons_False, filter_cons_True by (unfold says_rgba; rewrite ?E; auto).
      apply three_sets_eq; set_solver.
    + rewrite add_rgb, IH. f_equal.
      rewrite filter_cons_True, filter_cons_False by (unfold says_rgba; rewrite ?E; auto).
      apply three_sets_eq; set_solver.
Qed.

(** The dictionary [extract_colors_from_css] returns, in closed form. *)
Lemma extract_colors_closed css :
  extract_colors_from_css css
  = Some {[ "hex" := list_to_set (Str.upper <$> findall hex_pattern css no_flags);
            "rgb" := list_to_set (filter (λ m, ¬ says_rgba m)
                                         (findall rgb_pattern css no_flags));
            "rgba" := list_to_set (filter says_rgba
                                          (findall rgb_pattern css no_flags)) ]}.
Proof.
  unfold extract_colors_from_css. rewrite update_hex. cbn [mbind option_bind].
  change (foldl _ ?s ?l) with (foldl (λ state rgb, colors ← state; route rgb colors) s l).
  rewrite route_fold. f_equal. apply three_sets_eq; set_solver.
Qed.

Lemma extract_spacing_closed css :
  extract_spacing_values css
  = Some {[ "margins" := list_to_set (findall margin_pattern css IGNORECASE);
            "paddings" := list_to_set (findall padding_pattern css IGNORECASE) ]}.
Proof.
  unfold extract_spacing_values.
  change (update "margins" ?ms _)
    with (Some ({[ "margins" := ∅ ∪ list_to_set ms; "paddings" := ∅ ]}
                : gmap string (gset string))).
  cbn [mbind option_bind].
  change (update "paddings" ?ps _)
    with (Some ({[ "margins" := ∅ ∪ list_to_set (findall margin_pattern css IGNORECASE);
                   "paddings" := ∅ ∪ list_to_set ps ]}
                : gmap string (gset string))).
  by rewrite !(left_id_L ∅ (∪)).
Qed.

(** ** Strings and character lists *)

Section Strings.
Implicit Types (s t : string) (l : list ascii).

Lemma chars_of_chars l : Str.chars (Str.of_chars l) = l.
Proof. apply list_ascii_of_string_of_list_ascii. Qed.

Lemma of_chars_chars s : Str.of_chars (Str.chars s) = s.
Proof. apply string_of_list_ascii_of_string. Qed.

Lemma chars_app s t : Str.chars (s +:+ t) = Str.chars s ++ Str.chars t.
Proof. induction s as [|c s IH]; simpl; [done|]. by rewrite IH. Qed.

Lemma of_chars_app l1 l2 :
  Str.of_chars (l1 ++ l2) = Str.of_chars l1 +:+ Str.of_chars l2.
Proof. induction l1 as [|c l1 IH]; simpl; [done|]. by rewrite IH. Qed.

Lemma length_chars s : length (Str.chars s) = String.length s.
Proof. induction s as [|c s IH]; simpl; [done|]. by rewrite IH. Qed.

Lemma chars_inj s t : Str.chars s = Str.chars t → s = t.
Proof. intros H. by rewrite <-(of_chars_chars s), H, of_chars_chars. Qed.

Lemma length_upper s : String.length (Str.upper s) = String.length s.
Proof.
  unfold Str.upper. by rewrite <-!length_chars, chars_of_chars, length_fmap.
Qed.

Lemma upper_app s t : Str.upper (s +:+ t) = Str.upper s +:+ Str.upper t.
Proof. unfold Str.upper. by rewrite chars_app, fmap_app, of_chars_app. Qed.
End Strings.

Lemma upper_hex c : Chars.is_hex c = true → Chars.is_hex (Chars.upper c) = true.
Proof.
  destruct c as [[] [] [] [] [] [] [] []]; vm_compute; congruence.
Qed.

Lemma upper_idem c : Chars.upper (Chars.upper c) = Chars.upper c.
Proof. by destruct c as [[] [] [] [] [] [] [] []]. Qed.

Lemma hex_digits_upper ds : hex_digits ds → hex_digits (Str.upper ds).
Proof.
  unfold hex_digits, Str.upper. rewrite chars_of_chars, Forall_fmap.
  intros H. eapply Forall_impl; [done|]. intros c. apply upper_hex.
Qed.

Lemma hex_literal_occurrence css m :
  hex_literal css m ↔ hex_occurrence (Str.chars css) (Str.chars m).
Proof.
  split.
  - intros (pre & ds & post & -> & Hlen & Hds & Hpost & ->).
    exists (Str.chars pre), (Str.chars ds), (Str.chars post).
    rewrite !chars_app, length_chars. done.
  - intros (pre & ds & post & Hcss & Hlen & Hds & Hpost & Hm).
    exists (Str.of_chars pre), (Str.of_chars ds), (Str.of_chars post).
    unfold hex_digits. rewrite <-length_chars, !chars_of_chars.
    split; [|split; [done|split; [done|split; [done|]]]]; apply chars_inj.
    + by rewrite Hcss, !chars_app, !chars_of_chars.
    + by rewrite Hm, !chars_app, !chars_of_chars.
Qed.

Lemma findall_hex css m :
  m ∈ findall hex_pattern css no_flags ↔ hex_literal css m.
Proof.
  rewrite findall_eq, list_elem_of_fmap, hex_literal_occurrence. split.
  - intros (w & -> & Hw). apply scan_hex in Hw. by rewrite chars_of_chars.
  - intros H. exists (Str.chars m). split; [by rewrite of_chars_chars|].
    by apply scan_hex.
Qed.

(** ** The colour extractor *)

Lemma rgba_literal_match l post :
  match_at no_flags rgb_pattern l (Str.chars "rgba(0,0,0,0.5)" ++ post)
  = Some (Cursor (reverse (Str.chars "rgba(0,0,0,0.5)") ++ l) post 15 None).
Proof. vm_compute. reflexivity. Qed.

Lemma rgb_literal_match l post :
  match_at no_flags rgb_pattern l (Str.chars "rgb(0,0,0)" ++ post)
  = Some (Cursor (reverse (Str.chars "rgb(0,0,0)") ++ l) post 10 None).
Proof. vm_compute. reflexivity. Qed.

(** [re.findall] finds a literal wherever it stands in the text, when the
    pattern matches it there and its first character stops earlier matches. *)
Lemma findall_finds fl a0 r' c t pre post :
  accepts fl r' c = false →
  has_group (Seq (Atom a0) r') = false →
  (∀ l, match_at fl (Seq (Atom a0) r') l (c :: t ++ Str.chars post)
        = Some (Cursor (reverse (c :: t) ++ l) (Str.chars post)
                       (length (c :: t)) None)) →
  Str.of_chars (c :: t)
  ∈ findall (Seq (Atom a0) r') (pre +:+ Str.of_chars (c :: t) +:+ post) fl.
Proof.
  intros Hc Hg Hm. rewrite findall_eq, !chars_app, chars_of_chars.
  apply list_elem_of_fmap. exists (c :: t). split; [done|].
  specialize (Hm (reverse (Str.chars pre) ++ [])).
  apply (scan_finds fl _ _ _ _ _ (Str.chars pre) 0 []) in Hm; [|done|lia].
  by rewrite reported_whole in Hm.
Qed.


Lemma get_hex css :
  get "hex" (extract_colors_from_css css)
  = Some (list_to_set (Str.upper <$> findall hex_pattern css no_flags)).
Proof. by rewrite extract_colors_closed. Qed.

Lemma get_rgb css :
  get "rgb" (extract_colors_from_css css)
  = Some (list_to_set (filter (λ m, ¬ says_rgba m)
                              (findall rgb_pattern css no_flags))).
Proof. by rewrite extract_colors_closed. Qed.

Lemma get_rgba css :
  get "rgba" (extract_colors_from_css css)
  = Some (list_to_set (filter says_rgba (findall rgb_pattern css no_flags))).
Proof. by rewrite extract_colors_closed. Qed.

(** C1, as stated, fails: with [#ffff] in the text, the hex collection holds
    the four-digit entry [#FFFF], which has neither 3 nor 6 digits. *)
Lemma hex_four_digits_counterexample :
  ¬ (∀ hex, get "hex" (extract_colors_from_css "a { color: #ffff; }") = Some hex →
     ∀ x, x ∈ hex →
       ∃ ds, x = "#" +:+ ds ∧ (String.length ds = 3 ∨ String.length ds = 6)).
Proof.
  intros H. destruct (H {[ "#FFFF" ]}) with (x := "#FFFF") as (ds & Hx & Hlen).
  - rewrite get_hex. eval_findall. reflexivity.
  - by apply elem_of_singleton.
  - change ("#" +:+ ds) with (String "#" ds) in Hx. injection Hx as <-.
    simpl in Hlen. lia.
Qed.

(** C1, amended: the hex collection holds exactly the upper-cased
    occurrences of [#] followed by 3 to 6 hexadecimal digits and a word
    boundary.  Every entry therefore has between 3 and 6 digits: an 8-digit
    form never appears, a 4- or 5-digit form does. *)
Theorem hex_collection_exact css :
  ∃ hex, get "hex" (extract_colors_from_css css) = Some hex
    ∧ (∀ x, x ∈ hex ↔ ∃ m, hex_literal css m ∧ x = Str.upper m)
    ∧ (∀ x, x ∈ hex →
         ∃ ds, x = "#" +:+ ds ∧ 3 ≤ String.length ds ≤ 6 ∧ hex_digits ds).
Proof.
  eexists. split; [apply get_hex|].
  assert (Hiff : ∀ x, x ∈ (list_to_set (Str.upper <$> findall hex_pattern css no_flags)
                           : gset string)
                      ↔ ∃ m, hex_literal css m ∧ x = Str.upper m).
  { intros x. rewrite elem_of_list_to_set, list_elem_of_fmap.
    split; intros (m & ? & ?); exists m; by rewrite ?findall_hex in *. }
  split; [done|]. intros x (m & (pre & ds & post & _ & Hlen & Hds & _ & ->) & ->)%Hiff.
  exists (Str.upper ds). split; [by rewrite upper_app|].
  split; [by rewrite length_upper|by apply hex_digits_upper].
Qed.

Lemma upper_upper s : Str.upper (Str.upper s) = Str.upper s.
Proof.
  unfold Str.upper. rewrite chars_of_chars, <-list_fmap_compose. f_equal.
  apply list_fmap_ext. intros _ c _. apply upper_idem.
Qed.

Lemma size_list_to_set_dups (l : list string) :
  size (list_to_set l : gset string) = length (remove_dups l).
Proof.
  rewrite <-(size_list_to_set (C := gset string)) by apply NoDup_remove_dups.
  f_equal. apply set_eq. intros x.
  by rewrite !elem_of_list_to_set, elem_of_remove_dups.
Qed.

(** C3: every matched hex literal enters the hex collection in upper case,
    and entries that differ only in letter case collapse into one.  A text
    that contains both [#fff] and [#FFF] has the entry [#FFF] and not
    [#fff]; when these are its only hex literals, the collection is exactly
    [{#FFF}], of size 1. *)
Theorem hex_case_normalised :
  (∀ css, ∃ hex,
      get "hex" (extract_colors_from_css css) = Some hex
      ∧ (∀ m, m ∈ findall hex_pattern css no_flags → Str.upper m ∈ hex)
      ∧ (∀ x, x ∈ hex →
           Str.upper x = x
           ∧ ∃ m, m ∈ findall hex_pattern css no_flags ∧ x = Str.upper m)
      ∧ size hex
        = length (remove_dups (Str.upper <$> findall hex_pattern css no_flags))
      ∧ (hex_literal css "#fff" → hex_literal css "#FFF" →
           "#FFF" ∈ hex ∧ ("#fff" ∉ hex)
           ∧ ((∀ m, hex_literal css m → m = "#fff" ∨ m = "#FFF") →
                hex = {[ "#FFF" ]} ∧ size hex = 1)))
  ∧ get "hex" (extract_colors_from_css "a { color: #fff; } b { color: #FFF; }")
    = Some {[ "#FFF" ]}.
Proof.
  split; [|rewrite get_hex; eval_findall; reflexivity].
  intros css. eexists. split; [apply get_hex|].
  set (ms := findall hex_pattern css no_flags).
  assert (Hin : ∀ x, x ∈ (list_to_set (Str.upper <$> ms) : gset string)
                     ↔ ∃ m, m ∈ ms ∧ x = Str.upper m).
  { intros x. rewrite elem_of_list_to_set, list_elem_of_fmap. naive_solver. }
  assert (Hup : ∀ x, x ∈ (list_to_set (Str.upper <$> ms) : gset string) →
                     Str.upper x = x).
  { intros x (m & _ & ->)%Hin. apply upper_upper. }
  split; [intros m ?; apply Hin; eauto|].
  split; [intros x Hx; split; [by apply Hup|by apply Hin]|].
  split; [apply size_list_to_set_dups|].
  intros Hlow%findall_hex Hupp%findall_hex.
  split; [apply Hin; by exists "#FFF"|].
  split; [by intros ?%Hup|].
  intros Honly.
  assert (list_to_set (Str.upper <$> ms) = ({[ "#FFF" ]} : gset string)) as ->.
  { apply set_eq. intros x. rewrite Hin, elem_of_singleton. split.
    - intros (m & Hm%findall_hex%Honly & ->). by destruct Hm as [-> | ->].
    - intros ->. by exists "#FFF". }
  split; [done|apply size_singleton].
Qed.

Lemma rgb_pattern_headed :
  ∃ r', rgb_pattern = Seq (Atom (Lit "r")) r'
        ∧ accepts no_flags r' "r" = false
        ∧ has_group r' = false.
Proof. eexists. repeat split; reflexivity. Qed.

Lemma findall_rgb_literal_a pre post :
  "rgba(0,0,0,0.5)"
  ∈ findall rgb_pattern (pre +:+ "rgba(0,0,0,0.5)" +:+ post) no_flags.
Proof.
  destruct rgb_pattern_headed as (r' & E & Hr' & Hg).
  pose proof (λ l, rgba_literal_match l (Str.chars post)) as Hm.
  rewrite E in *.
  exact (findall_finds no_flags _ r' "r"%char (Str.chars "gba(0,0,0,0.5)")
           pre post Hr' Hg Hm).
Qed.

Lemma findall_rgb_literal pre post :
  "rgb(0,0,0)" ∈ findall rgb_pattern (pre +:+ "rgb(0,0,0)" +:+ post) no_flags.
Proof.
  destruct rgb_pattern_headed as (r' & E & Hr' & Hg).
  pose proof (λ l, rgb_literal_match l (Str.chars post)) as Hm.
  rewrite E in *.
  exact (findall_finds no_flags _ r' "r"%char (Str.chars "gb(0,0,0)")
           pre post Hr' Hg Hm).
Qed.

(** C4: each rgb/rgba match is stored as matched, in the rgba collection
    when it contains the substring [rgba] and in the rgb collection
    otherwise, never in both.  Wherever [rgba(0,0,0,0.5)] stands in a text it
    ends up in rgba and not in rgb, and [rgb(0,0,0)] in rgb and not in
    rgba. *)
Theorem rgb_routing :
  (∀ css, ∃ rgb rgba,
      get "rgb" (extract_colors_from_css css) = Some rgb
      ∧ get "rgba" (extract_colors_from_css css) = Some rgba
      ∧ (∀ m, m ∈ findall rgb_pattern css no_flags →
           if Str.contains "rgba" m
           then m ∈ rgba ∧ (m ∉ rgb)
           else m ∈ rgb ∧ (m ∉ rgba))
      ∧ (∀ x, x ∈ rgb ∪ rgba → x ∈ findall rgb_pattern css no_flags))
  ∧ (∀ pre post, ∃ rgb rgba,
      let css := pre +:+ "rgba(0,0,0,0.5)" +:+ post in
      get "rgb" (extract_colors_from_css css) = Some rgb
      ∧ get "rgba" (extract_colors_from_css css) = Some rgba
      ∧ "rgba(0,0,0,0.5)" ∈ rgba ∧ ("rgba(0,0,0,0.5)" ∉ rgb))
  ∧ (∀ pre post, ∃ rgb rgba,
      let css := pre +:+ "rgb(0,0,0)" +:+ post in
      get "rgb" (extract_colors_from_css css) = Some rgb
      ∧ get "rgba" (extract_colors_from_css css) = Some rgba
      ∧ "rgb(0,0,0)" ∈ rgb ∧ ("rgb(0,0,0)" ∉ rgba)).
Proof.
  assert (Hroute : ∀ css m,
    (m ∈ (list_to_set (filter (λ m, ¬ says_rgba m)
                              (findall rgb_pattern css no_flags)) : gset string)
     ↔ m ∈ findall rgb_pattern css no_flags ∧ Str.contains "rgba" m = false)
    ∧ (m ∈ (list_to_set (filter says_rgba
                                (findall rgb_pattern css no_flags)) : gset string)
       ↔ m ∈ findall rgb_pattern css no_flags ∧ Str.contains "rgba" m = true)).
  { intros css m. rewrite !elem_of_list_to_set, !list_elem_of_filter.
    unfold says_rgba. destruct (Str.contains "rgba" m); naive_solver. }
  split; [|split].
  - intros css. eexists _, _. split; [apply get_rgb|]. split; [apply get_rgba|].
    split.
    + intros m Hm. destruct (Hroute css m) as [H1 H2].
      destruct (Str.contains "rgba" m) eqn:E; rewrite H1, H2; naive_solver.
    + intros x [Hx|Hx]%elem_of_union.
      * by apply (Hroute css x) in Hx as [? _].
      * by apply (Hroute css x) in Hx as [? _].
  - intros pre post. eexists _, _. split; [apply get_rgb|]. split; [apply get_rgba|].
    destruct (Hroute (pre +:+ "rgba(0,0,0,0.5)" +:+ post) "rgba(0,0,0,0.5)") as [H1 H2].
    rewrite H1, H2. split; [split; [apply findall_rgb_literal_a|done]|].
    by intros [_ ?].
  - intros pre post. eexists _, _. split; [apply get_rgb|]. split; [apply get_rgba|].
    destruct (Hroute (pre +:+ "rgb(0,0,0)" +:+ post) "rgb(0,0,0)") as [H1 H2].
    rewrite H1, H2. split; [split; [apply findall_rgb_literal|done]|].
    by intros [_ ?].
Qed.


(** ** The font extractor *)

Lemma fonts_loop l : ∀ acc,
  foldl (λ cleaned_fonts font,
           if bool_decide (clean font ∈ cleaned_fonts)
           then cleaned_fonts
           else cleaned_fonts ++ [clean font]) acc l
  = acc ++ filter (λ y, y ∉ acc) (first_seen (clean <$> l)).
Proof.
  induction l as [|f l IH]; intros acc; cbn [foldl fmap list_fmap first_seen].
  - by rewrite filter_nil, app_nil_r.
  - rewrite IH. case_bool_decide as Hin.
    + rewrite filter_cons_False by auto. f_equal.
      rewrite list_filter_filter. apply list_filter_iff. intros y.
      split; [|by intros [? ?]]. intros Hy. split; [done|]. by intros ->.
    + rewrite filter_cons_True by done. rewrite <-app_assoc. cbn [app]. do 2 f_equal.
      rewrite list_filter_filter. apply list_filter_iff. intros y.
      rewrite not_elem_of_app, list_elem_of_singleton. done.
Qed.

Lemma filter_not_in_nil (l : list string) : filter (λ y, y ∉ []) l = l.
Proof.
  induction l as [|x l IH]; [done|].
  rewrite filter_cons_True by apply not_elem_of_nil. by rewrite IH.
Qed.

Lemma extract_fonts_first_seen css :
  extract_fonts_from_css css
  = first_seen (clean <$> findall font_pattern css IGNORECASE).
Proof.
  unfold extract_fonts_from_css.
  change (foldl _ [] ?l)
    with (foldl (λ cleaned_fonts font,
                   if bool_decide (clean font ∈ cleaned_fonts)
                   then cleaned_fonts
                   else cleaned_fonts ++ [clean font]) [] l).
  rewrite fonts_loop. cbn [app]. apply filter_not_in_nil.
Qed.

Lemma elem_of_first_seen l x : x ∈ first_seen l ↔ x ∈ l.
Proof.
  induction l as [|y l IH]; cbn [first_seen]; [done|].
  rewrite !elem_of_cons, list_elem_of_filter, IH.
  destruct (decide (x = y)); naive_solver.
Qed.

Lemma NoDup_first_seen l : NoDup (first_seen l).
Proof.
  induction l as [|y l IH]; cbn [first_seen]; constructor.
  - rewrite list_elem_of_filter. naive_solver.
  - by apply NoDup_filter.
Qed.

Lemma first_seen_sublist l : first_seen l `sublist_of` l.
Proof.
  induction l as [|y l IH]; cbn [first_seen]; [done|].
  apply sublist_skip. etrans; [apply sublist_filter|done].
Qed.

Lemma first_seen_head x l : ∃ others, first_seen (x :: l) = x :: others.
Proof. by eexists. Qed.

Lemma lstrip_suffix l : ∃ k, l = k ++ Str.lstrip l.
Proof.
  induction l as [|c l [k IH]]; [by exists []|]. simpl.
  destruct (Chars.is_space c); [|by exists []].
  exists (c :: k). simpl. by f_equal.
Qed.

Lemma lstrip_head l c : head (Str.lstrip l) = Some c → Chars.is_space c = false.
Proof.
  induction l as [|d l IH]; [done|]. simpl.
  destruct (Chars.is_space d) eqn:E; [done|]. simpl. by intros [= <-].
Qed.

Lemma chars_strip s :
  Str.chars (Str.strip s)
  = reverse (Str.lstrip (reverse (Str.lstrip (Str.chars s)))).
Proof. unfold Str.strip. by rewrite chars_of_chars. Qed.

Lemma trimmed_strip s : trimmed (Str.strip s).
Proof.
  unfold trimmed. rewrite chars_strip.
  set (a := Str.lstrip (Str.chars s)). set (b := Str.lstrip (reverse a)).
  split; intros c Hc.
  - destruct (lstrip_suffix (reverse a)) as [k Hk]. fold b in Hk.
    apply (f_equal reverse) in Hk. rewrite reverse_involutive, reverse_app in Hk.
    apply (lstrip_head (Str.chars s)). fold a. rewrite Hk.
    destruct (reverse b); [done|]. done.
  - rewrite last_reverse in Hc. by apply lstrip_head in Hc.
Qed.

Lemma elem_of_strip s c : c ∈ Str.chars (Str.strip s) → c ∈ Str.chars s.
Proof.
  rewrite chars_strip, elem_of_reverse. intros Hc.
  destruct (lstrip_suffix (Str.chars s)) as [k1 ->].
  destruct (lstrip_suffix (reverse (Str.lstrip (Str.chars s)))) as [k2 Hk2].
  apply elem_of_app. right. apply elem_of_reverse. rewrite Hk2.
  apply elem_of_app. by right.
Qed.

Lemma elem_of_remove q s c : c ∈ Str.chars (Str.remove q s) ↔ c ∈ Str.chars s ∧ c ≠ q.
Proof.
  unfold Str.remove. rewrite chars_of_chars, list_elem_of_filter. naive_solver.
Qed.

Lemma clean_no_quotes font c :
  c ∈ Str.chars (clean font) → c ≠ "'"%char ∧ c ≠ "034"%char.
Proof.
  intros Hc%elem_of_strip. apply elem_of_remove in Hc as [Hc ?].
  by apply elem_of_remove in Hc as [_ ?].
Qed.

Lemma font_declaration_match l post :
  match_at IGNORECASE font_pattern l (Str.chars helvetica_declaration ++ post)
  = Some (Cursor
            (reverse (Str.chars helvetica_declaration) ++ l) post 49
            (Some (Str.chars (quoted "Helvetica Neue" +:+ ", Arial, sans-serif")))).
Proof. vm_compute. reflexivity. Qed.

(** C5: the fonts are the cleaned [font-family] values in order of first
    appearance: each value loses its double and single quotes and the white
    space around it, and is appended only when not yet present.  A text that
    is the declaration [font-family: "Helvetica Neue", Arial, sans-serif;],
    alone or inside a rule, yields the one entry
    [Helvetica Neue, Arial, sans-serif]; a text that begins with it has that
    entry first. *)
Theorem fonts_first_seen :
  (∀ css,
     let values := findall font_pattern css IGNORECASE in
     let fonts := extract_fonts_from_css css in
     fonts = first_seen (clean <$> values)
     ∧ NoDup fonts
     ∧ fonts `sublist_of` (clean <$> values)
     ∧ (∀ x, x ∈ fonts ↔ ∃ v, v ∈ values ∧ x = clean v)
     ∧ (∀ x, x ∈ fonts →
          trimmed x ∧ ("'"%char ∉ Str.chars x) ∧ ("034"%char ∉ Str.chars x)))
  ∧ extract_fonts_from_css helvetica_declaration
    = ["Helvetica Neue, Arial, sans-serif"]
  ∧ extract_fonts_from_css
      ("body { " +:+ helvetica_declaration +:+ " color: #333; }")
    = ["Helvetica Neue, Arial, sans-serif"]
  ∧ (∀ post, ∃ others,
       extract_fonts_from_css (helvetica_declaration +:+ post)
       = "Helvetica Neue, Arial, sans-serif" :: others).
Proof.
  split; [|split; [|split]];
    [|rewrite extract_fonts_first_seen; eval_findall; reflexivity..|].
  - intros css values fonts. subst fonts. rewrite extract_fonts_first_seen.
    fold values. split; [done|]. split; [apply NoDup_first_seen|].
    split; [apply first_seen_sublist|].
    assert (Hin : ∀ x, x ∈ first_seen (clean <$> values)
                       ↔ ∃ v, v ∈ values ∧ x = clean v).
    { intros x. rewrite elem_of_first_seen, list_elem_of_fmap. naive_solver. }
    split; [done|]. intros x (v & _ & ->)%Hin.
    split; [apply trimmed_strip|].
    split; intros Hq%clean_no_quotes; naive_solver.
  - intros post. rewrite extract_fonts_first_seen, findall_eq, chars_app.
    pose proof (font_declaration_match [] (Str.chars post)) as Hm.
    destruct (Str.chars helvetica_declaration) as [|c decl] eqn:E; [done|].
    cbn [app] in *. rewrite scan_cons, Hm.
    cbn [fmap list_fmap]. apply first_seen_head.
Qed.

(** ** The spacing extractor *)

Lemma get_margins css :
  get "margins" (extract_spacing_values css)
  = Some (list_to_set (findall margin_pattern css IGNORECASE)).
Proof. by rewrite extract_spacing_closed. Qed.

Lemma get_paddings css :
  get "paddings" (extract_spacing_values css)
  = Some (list_to_set (findall padding_pattern css IGNORECASE)).
Proof. by rewrite extract_spacing_closed. Qed.

Lemma length_remove_dups (l : list string) : length (remove_dups l) ≤ length l.
Proof.
  induction l as [|x l IH]; simpl; [done|]. case_decide; simpl; lia.
Qed.

Lemma size_list_to_set_le (l : list string) :
  size (list_to_set l : gset string) ≤ length l.
Proof. rewrite size_list_to_set_dups. apply length_remove_dups. Qed.

(** C6: the margins and the paddings are sets: no value occurs twice, and
    neither has more entries than there are matched declarations.  Six margin
    declarations, two pairs of which share a value, give four entries. *)
Theorem spacing_no_duplicates :
  (∀ css, ∃ margins paddings,
      get "margins" (extract_spacing_values css) = Some margins
      ∧ get "paddings" (extract_spacing_values css) = Some paddings
      ∧ NoDup (elements margins) ∧ NoDup (elements paddings)
      ∧ (∀ x, x ∈ margins ↔ x ∈ findall margin_pattern css IGNORECASE)
      ∧ (∀ x, x ∈ paddings ↔ x ∈ findall padding_pattern css IGNORECASE)
      ∧ size margins ≤ length (findall margin_pattern css IGNORECASE)
      ∧ size paddings ≤ length (findall padding_pattern css IGNORECASE))
  ∧ (let css := "margin-top: 1px; margin-right: 2px; margin-bottom: 1px; "
                +:+ "margin-left: 2px; margin-block: 0; margin-inline: auto;" in
     length (findall margin_pattern css IGNORECASE) = 6
     ∧ get "margins" (extract_spacing_values css)
       = Some {[ "1px"; "2px"; "0"; "auto" ]})
  ∧ (let css := "padding-top: 1px; padding-right: 2px; padding-bottom: 1px; "
                +:+ "padding-left: 2px; padding-block: 0; padding-inline: auto;" in
     length (findall padding_pattern css IGNORECASE) = 6
     ∧ get "paddings" (extract_spacing_values css)
       = Some {[ "1px"; "2px"; "0"; "auto" ]}).
Proof.
  split; [|split; cbv zeta; rewrite ?get_margins, ?get_paddings; eval_findall;
           by split].
  intros css. eexists _, _. split; [apply get_margins|]. split; [apply get_paddings|].
  split; [apply NoDup_elements|]. split; [apply NoDup_elements|].
  split; [intros x; apply elem_of_list_to_set|].
  split; [intros x; apply elem_of_list_to_set|].
  split; apply size_list_to_set_le.
Qed.

(** C10: nothing is required of the character before [margin] or [padding].
    Whatever single character precedes the property name, [5px] still enters
    the collection; so it does for [xmargin: 5px;] and [xpadding: 5px;]. *)
Theorem spacing_no_left_boundary :
  (∀ c : ascii,
     get "margins" (extract_spacing_values (String c "margin: 5px;"))
     = Some {[ "5px" ]})
  ∧ (∀ c : ascii,
       get "paddings" (extract_spacing_values (String c "padding: 5px;"))
       = Some {[ "5px" ]})
  ∧ get "margins" (extract_spacing_values "xmargin: 5px;") = Some {[ "5px" ]}
  ∧ get "paddings" (extract_spacing_values "xpadding: 5px;") = Some {[ "5px" ]}.
Proof.
  assert (Hm : ∀ c : ascii,
    findall margin_pattern (String c "margin: 5px;") IGNORECASE = ["5px"]).
  { intros [[] [] [] [] [] [] [] []]; vm_compute; reflexivity. }
  assert (Hp : ∀ c : ascii,
    findall padding_pattern (String c "padding: 5px;") IGNORECASE = ["5px"]).
  { intros [[] [] [] [] [] [] [] []]; vm_compute; reflexivity. }
  split; [|split; [|split]]; intros; rewrite ?get_margins, ?get_paddings, ?Hm, ?Hp;
    reflexivity.
Qed.

(** ** The component scanner *)

Lemma append_headings (b f n : component) acc d :
  append "headings" d
    {[ "buttons" := b; "forms" := f; "navigation" := n; "headings" := Items acc ]}
  = Some {[ "buttons" := b; "forms" := f; "navigation" := n;
            "headings" := Items (acc ++ [Dict d]) ]}.
Proof. reflexivity. Qed.

Lemma headings_fold html levels : ∀ (b f n : component) (acc : list elem),
  foldl (λ state level,
           components ← state;
           match headings_at html level with
           | [] => Some components
           | _ :: _ => append "headings" (heading_record html level) components
           end)
        (Some {[ "buttons" := b; "forms" := f; "navigation" := n;
                 "headings" := Items acc ]})
        levels
  = Some {[ "buttons" := b; "forms" := f; "navigation" := n;
            "headings" :=
              Items (acc ++ (Dict ∘ heading_record html
                             <$> filter (λ level, headings_at html level ≠ [])
                                        levels)) ]}.
Proof.
  induction levels as [|level levels IH]; intros b f n acc.
  - simpl. by rewrite app_nil_r.
  - cbn [foldl mbind option_bind].
    destruct (headings_at html level) as [|h hs] eqn:E.
    + rewrite IH. by rewrite filter_cons_False by (by rewrite E; intros []).
    + rewrite append_headings, IH. rewrite filter_cons_True by (by rewrite E).
      cbn [fmap list_fmap compose]. by rewrite <-app_assoc.
Qed.

(** The dictionary [analyze_html_structure] returns, in closed form. *)
Lemma analyze_html_closed html :
  analyze_html_structure html
  = Some {[ "buttons" :=
              Items (Text <$> take 5 (findall button_pattern html IGNORECASE_DOTALL));
            "forms" := Int (length (findall form_pattern html IGNORECASE_DOTALL));
            "navigation" := Int (length (findall nav_pattern html IGNORECASE_DOTALL));
            "headings" :=
              Items (Dict ∘ heading_record html
                     <$> filter (λ level, headings_at html level ≠ []) (seq 1 6)) ]}.
Proof.
  unfold analyze_html_structure.
  change (foldl _ (Some ?m) ?l)
    with (foldl (λ state level,
                   components ← state;
                   match headings_at html level with
                   | [] => Some components
                   | _ :: _ =>
                       append "headings" (heading_record html level) components
                   end)
                (Some ({[ "buttons" :=
                            Items (Text <$> take 5 (findall button_pattern html
                                                      IGNORECASE_DOTALL));
                          "forms" :=
                            Int (length (findall form_pattern html IGNORECASE_DOTALL));
                          "navigation" :=
                            Int (length (findall nav_pattern html IGNORECASE_DOTALL));
                          "headings" := Items [] ]} : gmap string component))
                l).
  by rewrite headings_fold.
Qed.

Lemma scan_skip_over fl r w : ∀ l rest,
  scan fl r (length w) l (w ++ rest) = scan fl r 0 (reverse w ++ l) rest.
Proof.
  induction w as [|c w IH]; intros l rest; [done|].
  cbn [length app]. by rewrite scan_skip, IH, reverse_cons, <-app_assoc.
Qed.

(** A text made of [n] copies of a fragment that the pattern matches whole,
    whatever stands around it, has [n] matches. *)
Lemma scan_copies fl r w n :
  has_group r = false →
  w ≠ [] →
  (∀ l, match_at fl r l [] = None) →
  (∀ l post, match_at fl r l (w ++ post)
             = Some (Cursor (reverse w ++ l) post (length w) None)) →
  ∀ l, scan fl r 0 l (mjoin (replicate n w)) = replicate n w.
Proof.
  intros Hg Hne Hnil Hm. induction n as [|n IH]; intros l.
  - change (mjoin (replicate 0 w)) with (@nil ascii). by rewrite scan_nil, Hnil.
  - change (mjoin (replicate (S n) w)) with (w ++ mjoin (replicate n w)).
    specialize (Hm l (mjoin (replicate n w))).
    destruct w as [|c w]; [done|]. cbn [app] in *.
    rewrite scan_cons, Hm, reported_whole by done. f_equal.
    cbn [pos length]. rewrite Nat.sub_succ, Nat.sub_0_r.
    by rewrite scan_skip_over, IH.
Qed.

Lemma chars_copies n s : Str.chars (copies n s) = mjoin (replicate n (Str.chars s)).
Proof. induction n as [|n IH]; simpl; [done|]. by rewrite chars_app, IH. Qed.

Lemma findall_copies r fl s n :
  has_group r = false →
  Str.chars s ≠ [] →
  (∀ l, match_at fl r l [] = None) →
  (∀ l post, match_at fl r l (Str.chars s ++ post)
             = Some (Cursor (reverse (Str.chars s) ++ l) post
                            (length (Str.chars s)) None)) →
  findall r (copies n s) fl = replicate n s.
Proof.
  intros Hg Hne Hnil Hm. rewrite findall_eq, chars_copies, scan_copies by done.
  by rewrite fmap_replicate, of_chars_chars.
Qed.

Lemma findall_buttons n :
  findall button_pattern (copies n "<button>x</button>") IGNORECASE_DOTALL
  = replicate n "<button>x</button>".
Proof.
  apply findall_copies; [done|done|done|]. intros l post. vm_compute. reflexivity.
Qed.

Lemma findall_forms n :
  findall form_pattern (copies n "<form>x</form>") IGNORECASE_DOTALL
  = replicate n "<form>x</form>".
Proof.
  apply findall_copies; [done|done|done|]. intros l post. vm_compute. reflexivity.
Qed.

Lemma findall_navs n :
  findall nav_pattern (copies n "<nav>x</nav>") IGNORECASE_DOTALL
  = replicate n "<nav>x</nav>".
Proof.
  apply findall_copies; [done|done|done|]. intros l post. vm_compute. reflexivity.
Qed.

(** C7: at most the first 5 button fragments are kept as examples, while the
    form and navigation counts are the numbers of matches, however large.  A
    text of [n] button fragments has [min 5 n] examples, hence exactly 5 for
    7 fragments; a text of [n] form (navigation) fragments has count [n]. *)
Theorem buttons_capped_counts_exact :
  (∀ html, ∃ components examples,
      analyze_html_structure html = Some components
      ∧ components !! "buttons" = Some (Items (Text <$> examples))
      ∧ examples = take 5 (findall button_pattern html IGNORECASE_DOTALL)
      ∧ length examples
        = 5 `min` length (findall button_pattern html IGNORECASE_DOTALL)
      ∧ components !! "forms"
        = Some (Int (length (findall form_pattern html IGNORECASE_DOTALL)))
      ∧ components !! "navigation"
        = Some (Int (length (findall nav_pattern html IGNORECASE_DOTALL))))
  ∧ (∀ n, ∃ components,
      analyze_html_structure (copies n "<button>x</button>") = Some components
      ∧ components !! "buttons"
        = Some (Items (Text <$> replicate (5 `min` n) "<button>x</button>")))
  ∧ (∃ components examples,
      analyze_html_structure (copies 7 "<button>x</button>") = Some components
      ∧ components !! "buttons" = Some (Items examples)
      ∧ length examples = 5)
  ∧ (∀ n, ∃ components,
      analyze_html_structure (copies n "<form>x</form>") = Some components
      ∧ components !! "forms" = Some (Int n))
  ∧ (∀ n, ∃ components,
      analyze_html_structure (copies n "<nav>x</nav>") = Some components
      ∧ components !! "navigation" = Some (Int n)).
Proof.
  split; [|split; [|split; [|split]]].
  - intros html. eexists _, _. split; [apply analyze_html_closed|].
    split; [done|]. split; [done|]. split; [apply length_take|]. by split.
  - intros n. eexists. split; [apply analyze_html_closed|].
    by rewrite findall_buttons, take_replicate.
  - eexists _, _. split; [apply analyze_html_closed|]. split; [done|].
    by rewrite findall_buttons.
  - intros n. eexists. split; [apply analyze_html_closed|].
    by rewrite findall_forms, length_replicate.
  - intros n. eexists. split; [apply analyze_html_closed|].
    by rewrite findall_navs, length_replicate.
Qed.

Lemma StronglySorted_filter (P : nat → Prop) `{!∀ x, Decision (P x)} l :
  StronglySorted lt l → StronglySorted lt (filter P l).
Proof.
  induction 1 as [|x l Hl IH Hx]; [constructor|].
  rewrite filter_cons. case_decide; [|done]. constructor; [done|].
  rewrite Forall_forall in *. intros y [_ Hy]%list_elem_of_filter. by apply Hx.
Qed.

(** C8: the headings are one record per level from 1 to 6 that has a match,
    in increasing level order; the record of a level holds the number of its
    matches under [h<level>] and the first 3 captured contents under
    [examples]; a level without a match has no record.  Four [<h2>] elements
    and no [<h1>] give the single record of level 2, with count 4 and the
    first 3 contents. *)
Theorem headings_by_level :
  (∀ html, ∃ components levels,
      analyze_html_structure html = Some components
      ∧ components !! "headings"
        = Some (Items (Dict ∘ heading_record html <$> levels))
      ∧ levels = filter (λ level, headings_at html level ≠ []) (seq 1 6)
      ∧ StronglySorted lt levels
      ∧ (∀ level, level ∈ levels ↔ 1 ≤ level ≤ 6 ∧ headings_at html level ≠ [])
      ∧ (∀ level,
           heading_record html level !! heading_key level
           = Some (Num (length (headings_at html level)))
           ∧ heading_record html level !! "examples"
             = Some (Texts (take 3 (headings_at html level)))
           ∧ length (take 3 (headings_at html level)) ≤ 3))
  ∧ (∃ components,
      analyze_html_structure "<h2>a</h2><h2>b</h2><h2>c</h2><h2>d</h2>"
      = Some components
      ∧ components !! "headings"
        = Some (Items [Dict {[ "h2" := Num 4; "examples" := Texts ["a"; "b"; "c"] ]}])).
Proof.
  split.
  - intros html. eexists _, _. split; [apply analyze_html_closed|].
    split; [done|]. split; [done|].
    split; [apply StronglySorted_filter; by repeat constructor|].
    split.
    + intros level. rewrite list_elem_of_filter, elem_of_seq. naive_solver lia.
    + intros level. split; [|split].
      * unfold heading_record. apply lookup_insert_eq.
      * unfold heading_record, heading_key.
        rewrite lookup_insert_ne by done. apply lookup_singleton_eq.
      * rewrite length_take. lia.
  - eexists. split; [apply analyze_html_closed|].
    unfold headings_at, heading_record, headings_at. cbn [seq]. eval_findall.
    reflexivity.
Qed.

(** ** Texts without matches *)

Lemma lower_cases c : Chars.lower c = c ∨ Chars.upper (Chars.lower c) = c.
Proof. destruct c as [[] [] [] [] [] [] [] []]; vm_compute; auto. Qed.

(** A character without case is matched by itself only, whatever the flags. *)
Lemma lit_exact fl c c' :
  Chars.lower c = c ∧ Chars.upper c = c → atom_ok fl (Lit c) c' = true → c' = c.
Proof.
  intros [Hl Hu]. simpl.
  destruct (ignorecase fl); intros H%bool_decide_eq_true; [|done].
  destruct (lower_cases c') as [Hc'|Hc']; congruence.
Qed.

Lemma lang_mandatory fl c r : ∀ l w rest,
  Chars.lower c = c ∧ Chars.upper c = c →
  mandatory c r = true → lang fl r l w rest → c ∈ w.
Proof.
  intros l w rest Hu. revert l w rest.
  induction r as [|a| |r1 IH1 r2 IH2|r1 IH1|greedy lo hi a|r1 IH1];
    intros l w rest Hm H; cbn [lang mandatory] in *; try done.
  - destruct a as [x| |]; try done. apply bool_decide_eq_true in Hm as ->.
    destruct H as (c' & -> & Hc'%lit_exact); [|done]. subst. set_solver.
  - destruct H as (w1 & w2 & -> & H1 & H2). apply elem_of_app.
    apply orb_true_iff in Hm as [Hm|Hm]; eauto.
  - destruct lo as [|lo]; [done|]. destruct a as [x| |]; try done.
    apply bool_decide_eq_true in Hm as ->. destruct H as [[Hlo _] Hall].
    destruct w as [|c' w]; [simpl in Hlo; lia|].
    apply Forall_cons in Hall as [Hc'%lit_exact _]; [|done]. subst. set_solver.
  - eauto.
Qed.

(** A match of a pattern with a mandatory character is not empty. *)
Lemma match_nonempty fl r c l right end_ :
  Chars.lower c = c ∧ Chars.upper c = c →
  mandatory c r = true →
  match_at fl r l right = Some end_ → 0 < pos end_.
Proof.
  intros Hc Hm (w & _ & Hl & _ & ->)%match_at_sound.
  apply (lang_mandatory fl c) in Hl; [|done..].
  destruct w; [by apply elem_of_nil in Hl|simpl; lia].
Qed.

Lemma script_matches_nonempty fl r c l right end_ :
  (r, c) ∈ script_patterns → match_at fl r l right = Some end_ → 0 < pos end_.
Proof.
  intros Hin. apply (match_nonempty fl r c).
  - unfold script_patterns in Hin. cbn in Hin.
    repeat (apply elem_of_cons in Hin as [[= -> ->]|Hin]; [done|]).
    by apply elem_of_nil in Hin.
  - unfold script_patterns in Hin. cbn [seq fmap list_fmap app] in Hin.
    repeat (apply elem_of_cons in Hin as [[= -> ->]|Hin]; [done|]).
    by apply elem_of_nil in Hin.
Qed.

(** A text without a character that the pattern cannot do without has no
    match. *)
Lemma findall_without r s fl c :
  Chars.lower c = c ∧ Chars.upper c = c →
  mandatory c r = true → c ∉ Str.chars s → findall r s fl = [].
Proof.
  intros Hu Hm Hc. rewrite findall_eq.
  destruct (scan fl r 0 [] (Str.chars s)) as [|m ms] eqn:E; [done|exfalso].
  assert (m ∈ scan fl r 0 [] (Str.chars s)) as Hin by (rewrite E; set_solver).
  apply scan_sound in Hin as (pre & rest & end_ & Hs & Hmatch & _).
  apply match_at_sound in Hmatch as (w & Hw & Hl & _).
  apply (lang_mandatory fl c) in Hl; [|done..].
  apply Hc. rewrite Hs, Hw. set_solver.
Qed.

Lemma no_colors_closed css :
  findall hex_pattern css no_flags = [] →
  findall rgb_pattern css no_flags = [] →
  extract_colors_from_css css = Some no_colors.
Proof. intros H1 H2. by rewrite extract_colors_closed, H1, H2. Qed.

Lemma no_fonts_closed css :
  findall font_pattern css IGNORECASE = [] → extract_fonts_from_css css = [].
Proof. intros H. by rewrite extract_fonts_first_seen, H. Qed.

Lemma no_spacing_closed css :
  findall margin_pattern css IGNORECASE = [] →
  findall padding_pattern css IGNORECASE = [] →
  extract_spacing_values css = Some no_spacing.
Proof. intros H1 H2. by rewrite extract_spacing_closed, H1, H2. Qed.

Lemma no_components_closed html :
  findall button_pattern html IGNORECASE_DOTALL = [] →
  findall form_pattern html IGNORECASE_DOTALL = [] →
  findall nav_pattern html IGNORECASE_DOTALL = [] →
  (∀ level, headings_at html level = []) →
  analyze_html_structure html = Some no_components.
Proof.
  intros H1 H2 H3 H4. rewrite analyze_html_closed, H1, H2, H3.
  assert (filter (λ level, headings_at html level ≠ []) (seq 1 6) = []) as ->; [|done].
  induction (seq 1 6) as [|x l IH]; [done|].
  by rewrite filter_cons_False by (by rewrite H4; intros []).
Qed.

(** C9: every extractor returns a result on every text, and a text without
    matches gives the empty result.  In particular a text without [#], [(]
    and [;] has no colours, fonts or spacing values, and a text without [<]
    has no components. *)
Theorem extraction_total text :
  (∃ colors, extract_colors_from_css text = Some colors
     ∧ dom colors = {[ "hex"; "rgb"; "rgba" ]}
     ∧ (findall hex_pattern text no_flags = [] →
        findall rgb_pattern text no_flags = [] → colors = no_colors))
  ∧ (findall font_pattern text IGNORECASE = [] → extract_fonts_from_css text = [])
  ∧ (∃ spacing, extract_spacing_values text = Some spacing
       ∧ dom spacing = {[ "margins"; "paddings" ]}
       ∧ (findall margin_pattern text IGNORECASE = [] →
          findall padding_pattern text IGNORECASE = [] → spacing = no_spacing))
  ∧ (∃ components, analyze_html_structure text = Some components
       ∧ dom components = {[ "buttons"; "forms"; "navigation"; "headings" ]}
       ∧ (findall button_pattern text IGNORECASE_DOTALL = [] →
          findall form_pattern text IGNORECASE_DOTALL = [] →
          findall nav_pattern text IGNORECASE_DOTALL = [] →
          (∀ level, headings_at text level = []) → components = no_components))
  ∧ (("#"%char ∉ Str.chars text) → ("("%char ∉ Str.chars text) →
     (";"%char ∉ Str.chars text) →
     extract_colors_from_css text = Some no_colors
     ∧ extract_fonts_from_css text = []
     ∧ extract_spacing_values text = Some no_spacing)
  ∧ (("<"%char ∉ Str.chars text) → analyze_html_structure text = Some no_components).
Proof.
  split; [|split; [|split; [|split; [|split]]]].
  - eexists. split; [apply extract_colors_closed|]. split; [done|].
    intros H1 H2. by rewrite H1, H2.
  - apply no_fonts_closed.
  - eexists. split; [apply extract_spacing_closed|]. split; [done|].
    intros H1 H2. by rewrite H1, H2.
  - eexists. split; [apply analyze_html_closed|]. split; [done|].
    intros H1 H2 H3 H4.
    pose proof (no_components_closed text H1 H2 H3 H4) as E.
    rewrite analyze_html_closed in E. by apply (inj Some).
  - intros Hhash Hparen Hsemi.
    split; [apply no_colors_closed|split; [apply no_fonts_closed|apply no_spacing_closed]].
    + by apply (findall_without _ _ _ "#"%char).
    + by apply (findall_without _ _ _ "("%char).
    + by apply (findall_without _ _ _ ";"%char).
    + by apply (findall_without _ _ _ ";"%char).
    + by apply (findall_without _ _ _ ";"%char).
  - intros Hlt. apply no_components_closed; try intros level;
      by apply (findall_without _ _ _ "<"%char).
Qed.

(** ** The orchestrator *)

Lemma truthy_Some css : css ≠ EmptyString → truthy (Some css) = Some css.
Proof. intros Hne. unfold truthy. by rewrite bool_decide_eq_false_2. Qed.

Lemma truthy_empty : truthy (Some EmptyString) = None.
Proof. reflexivity. Qed.

Lemma with_html_Some design_system html :
  ∃ r, with_html design_system html = Some r
       ∧ colors r = colors design_system
       ∧ typography r = typography design_system
       ∧ spacing r = spacing design_system.
Proof.
  unfold with_html. rewrite analyze_html_closed. cbn [mbind option_bind]. by eexists.
Qed.

Lemma with_css_Some design_system css :
  ∃ r, with_css design_system css = Some r
       ∧ extract_colors_from_css css = Some (colors r)
       ∧ typography r
         = <[ "fonts" := extract_fonts_from_css css ]> (typography design_system)
       ∧ extract_spacing_values css = Some (spacing r).
Proof.
  unfold with_css. rewrite extract_colors_closed, extract_spacing_closed.
  cbn [mbind option_bind]. by eexists.
Qed.

(** The html step keeps the three CSS fields. *)
Lemma html_step_keeps html (d : report) :
  ∃ r, match truthy html with
       | Some html_content => with_html d html_content
       | None => Some d
       end = Some r
       ∧ colors r = colors d ∧ typography r = typography d ∧ spacing r = spacing d.
Proof. destruct (truthy html) as [h|]; [apply with_html_Some|by exists d]. Qed.

(** C2, as stated, fails: for the empty CSS text, which is not absent,
    [analyze_website] leaves the colour field an empty dictionary and does not
    put the extractor's result there.  The URL is one that [urlparse]
    accepts, with network location [example.com]. *)
Lemma analyze_empty_css_counterexample :
  ¬ (∃ r, analyze_website (λ _, Some "example.com") "https://example.com" None
            (Some EmptyString)
          = Some r
          ∧ extract_colors_from_css EmptyString = Some (colors r)
          ∧ typography r !! "fonts" = Some (extract_fonts_from_css EmptyString)
          ∧ extract_spacing_values EmptyString = Some (spacing r)).
Proof.
  intros (r & Hr & Hcolors & _). injection Hr as <-. cbn [colors] in Hcolors.
  rewrite extract_colors_closed in Hcolors. apply (inj Some) in Hcolors.
  apply (f_equal (λ m : gmap string (gset string), m !! "hex")) in Hcolors.
  discriminate.
Qed.

(** C2, amended: [analyze_website] returns a report for every URL that
    [urlparse] accepts, and raises, whatever the contents, for a URL that
    [urlparse] rejects.  In the report, when the CSS text is not empty, the
    colour, typography and spacing fields hold what the three extractors
    return on it; when it is absent or empty, the three fields are left as
    empty dictionaries. *)
Theorem analyze_css_fields (netloc : string → option string) url html css_content :
  match netloc url with
  | None => analyze_website netloc url html css_content = None
  | Some _ =>
      ∃ r, analyze_website netloc url html css_content = Some r
        ∧ (∀ css, css_content = Some css → css ≠ EmptyString →
             extract_colors_from_css css = Some (colors r)
             ∧ typography r = {[ "fonts" := extract_fonts_from_css css ]}
             ∧ extract_spacing_values css = Some (spacing r))
        ∧ (css_content = None ∨ css_content = Some EmptyString →
             colors r = ∅ ∧ typography r = ∅ ∧ spacing r = ∅)
  end.
Proof.
  unfold analyze_website. destruct (netloc url) as [location|]; [|done].
  cbn [mbind option_bind].
  destruct css_content as [css|]; [destruct (decide (css = EmptyString)) as [->|Hne]|].
  - rewrite truthy_empty. cbn [mbind option_bind].
    edestruct html_step_keeps as (r & Hr & Hc & Ht & Hs).
    exists r. split; [exact Hr|]. split; [by intros ? [= <-]|].
    intros _. by rewrite Hc, Ht, Hs.
  - rewrite truthy_Some by done.
    edestruct with_css_Some as (d & Hd & Hc & Ht & Hs). rewrite Hd.
    cbn [mbind option_bind].
    destruct (html_step_keeps html d) as (r & Hr & Hc' & Ht' & Hs').
    exists r. split; [exact Hr|]. split; [|by intros [|[= ->]]].
    intros ? [= <-] _. by rewrite Hc', Ht', Hs'.
  - cbn [truthy mbind option_bind].
    edestruct html_step_keeps as (r & Hr & Hc & Ht & Hs).
    exists r. split; [exact Hr|]. split; [by intros ? [=]|].
    intros _. by rewrite Hc, Ht, Hs.
Qed.

(** * Further properties *)

(** ** More on the orchestrator *)

(** A URL that [urlparse] rejects: the call raises before anything is
    extracted. *)
Lemma analyze_website_raises (netloc : string → option string) u html_content
    css_content :
  netloc u = None → analyze_website netloc u html_content css_content = None.
Proof. intros E. unfold analyze_website. by rewrite E. Qed.

(** Everything [analyze_website] puts in the report. *)
Lemma analyze_website_report (netloc : string → option string) u location
    html_content css_content :
  netloc u = Some location →
  ∃ r, analyze_website netloc u html_content css_content = Some r
    ∧ r.(url) = u ∧ r.(domain) = location
    ∧ r.(metadata) = {[ "analyzed_at" := "timestamp"; "version" := "1.0" ]}
    ∧ match truthy css_content with
      | Some css =>
          extract_colors_from_css css = Some r.(colors)
          ∧ r.(typography) = {[ "fonts" := extract_fonts_from_css css ]}
          ∧ extract_spacing_values css = Some r.(spacing)
      | None => r.(colors) = ∅ ∧ r.(typography) = ∅ ∧ r.(spacing) = ∅
      end
    ∧ match truthy html_content with
      | Some html => analyze_html_structure html = Some r.(components)
      | None => r.(components) = ∅
      end.
Proof.
  intros E. unfold analyze_website. rewrite E. cbn [mbind option_bind].
  destruct (truthy css_content) as [css|]; destruct (truthy html_content) as [html|];
    unfold with_css, with_html;
    rewrite ?extract_colors_closed, ?extract_spacing_closed;
    cbn [mbind option_bind]; rewrite ?analyze_html_closed; cbn [mbind option_bind];
    eexists; (split; [reflexivity|]); cbn; done.
Qed.

Lemma truthy_cases content :
  (truthy content = None ∧ (content = None ∨ content = Some EmptyString))
  ∨ (∃ s, content = Some s ∧ s ≠ EmptyString ∧ truthy content = Some s).
Proof.
  destruct content as [s|]; [|left; auto].
  destruct (decide (s = EmptyString)) as [->|Hne]; [left; auto|].
  right. exists s. by rewrite truthy_Some.
Qed.

(** X1: for a URL that [urlparse] accepts, [analyze_website] returns a report
    whose components field holds what [analyze_html_structure] returns on the
    HTML text when that text is not empty, and stays an empty dictionary when
    the text is absent or empty.  For a URL that [urlparse] rejects, the call
    raises whatever the HTML text. *)
Theorem analyze_html_field (netloc : string → option string) u html_content
    css_content :
  match netloc u with
  | None => analyze_website netloc u html_content css_content = None
  | Some _ =>
      ∃ r, analyze_website netloc u html_content css_content = Some r
        ∧ (∀ html, html_content = Some html → html ≠ EmptyString →
             analyze_html_structure html = Some r.(components))
        ∧ (html_content = None ∨ html_content = Some EmptyString →
             r.(components) = ∅)
  end.
Proof.
  destruct (netloc u) as [location|] eqn:E; [|by apply analyze_website_raises].
  destruct (analyze_website_report netloc u location html_content css_content E)
    as (r & Hr & _ & _ & _ & _ & Hh).
  exists r. split; [done|].
  destruct (truthy_cases html_content) as [[E' Hc]|(s & -> & Hne & E')];
    rewrite E' in Hh.
  - split; [|done]. intros html -> Hne. destruct Hc as [|[= ->]]; done.
  - split; [by intros ? [= <-]|]. by intros [|[= ->]].
Qed.


(** ** What the matcher captures *)

Lemma run_sound_capture {A} fl r : ∀ (k : cursor → option A) l right n g res,
  run fl r k (Cursor l right n g) = Some res →
  ∃ w rest g', right = w ++ rest ∧ lang fl r l w rest
               ∧ capture_after fl r g g' w
               ∧ k (Cursor (reverse w ++ l) rest (n + length w) g') = Some res.
Proof.
  revert A. induction r as [|a| |r1 IH1 r2 IH2|r1 IH1|greedy lo hi a|r1 IH1];
    intros A k l right n g res H; cbn [run left_ right_ pos group1] in H.
  - exists [], right, g. simpl. rewrite Nat.add_0_r. repeat split; try done. by left.
  - destruct right as [|c right]; [done|]. destruct (atom_ok fl a c) eqn:E; [|done].
    exists [c], right, g. split; [done|]. split; [simpl; eauto|].
    split; [by left|]. simpl. by rewrite Nat.add_1_r.
  - destruct (at_boundary _) eqn:E; [|done].
    exists [], right, g. simpl. rewrite Nat.add_0_r. repeat split; try done. by left.
  - apply IH1 in H as (w1 & rest1 & g1 & -> & H1 & Hc1 & H).
    apply IH2 in H as (w2 & rest & g2 & -> & H2 & Hc2 & H).
    exists (w1 ++ w2), rest, g2. split; [by rewrite app_assoc|].
    split; [simpl; eauto|]. split.
    + destruct Hc2 as [[Hm2 ->]|(u & a & b & -> & -> & Hu)].
      * destruct Hc1 as [[Hm1 ->]|(u & a & b & -> & -> & Hu)].
        -- left. simpl. by rewrite Hm1, Hm2.
        -- right. exists u, a, (b ++ w2). rewrite <-!app_assoc.
           split; [done|]. split; [done|]. destruct Hu as (r0 & ? & ? & ? & ?).
           exists r0. eexists _, _. split; [|done]. simpl. set_solver.
      * right. exists u, (w1 ++ a), b. rewrite <-!app_assoc.
        split; [done|]. split; [done|]. destruct Hu as (r0 & ? & ? & ? & ?).
        exists r0. eexists _, _. split; [|done]. simpl. set_solver.
    + by rewrite reverse_app, <-app_assoc, length_app, Nat.add_assoc.
  - apply or_else_Some in H as [H|[_ H]].
    + apply IH1 in H as (w & rest & g' & -> & H1 & Hc & H).
      exists w, rest, g'. split; [done|]. split; [simpl; auto|]. split; [|done].
      destruct Hc as [[_ ->]|?]; [by left|by right].
    + exists [], right, g. simpl. rewrite Nat.add_0_r. repeat split; auto. by left.
  - assert (repeat_result (atom_ok fl a) lo hi k l right n g res)
      as (w & rest & ? & ? & ? & ?).
    { destruct greedy; [by apply repeat_greedy_sound|by apply repeat_lazy_sound]. }
    exists w, rest, g. split; [done|]. split; [done|]. split; [by left|done].
  - apply IH1 in H as (w & rest & g' & -> & H1 & _ & H). cbn [left_ right_ pos] in H.
    replace (n + length w - n) with (length (reverse w)) in H
      by (rewrite length_reverse; lia).
    rewrite take_app_length, reverse_involutive in H.
    exists w, rest, (Some w). split; [done|]. split; [done|]. split; [|done].
    right. exists w, [], []. rewrite app_nil_r.
    split; [done|]. split; [done|]. exists r1. eexists _, _. split; [|done].
    simpl. set_solver.
Qed.

(** What [re.findall] reports for a match is part of the matched word, and
    for a pattern with a group that must close, a text of that group. *)
Lemma match_at_reported fl r l right end_ :
  match_at fl r l right = Some end_ →
  ∃ w a b, right = w ++ right_ end_ ∧ pos end_ = length w
           ∧ lang fl r l w (right_ end_)
           ∧ w = a ++ reported r end_ ++ b
           ∧ (must_capture r = true → captured fl r (reported r end_)).
Proof.
  intros H. apply run_sound_capture in H as (w & rest & g' & -> & Hl & Hc & [= <-]).
  unfold reported. cbn [left_ right_ pos group1].
  destruct (has_group r) eqn:Hg.
  - destruct Hc as [[Hm ->]|(u & a & b & -> & -> & Hu)].
    + exists w, [], w. simpl. repeat split; try done. congruence.
    + exists (a ++ u ++ b), a, b. simpl. auto.
  - exists w, [], []. rewrite <-(length_reverse w), take_app_length, reverse_involutive.
    rewrite app_nil_r. repeat split; try done. intros Hm. exfalso.
    clear -Hg Hm. induction r; simpl in *; try done.
    apply orb_false_iff in Hg as [??]. apply orb_true_iff in Hm as [?|?]; auto.
Qed.

Lemma in_order_weaken ms a text : in_order ms text → in_order ms (a ++ text).
Proof.
  destruct ms as [|m ms]; [done|]. intros (a' & b & -> & H).
  exists (a ++ a'), b. by rewrite <-app_assoc.
Qed.

(** The matches that [re.findall] reports stand in the text in the order
    reported, one after the end of the other. *)
Lemma scan_in_order fl r rest : ∀ skip l,
  in_order (scan fl r skip l rest) (drop skip rest).
Proof.
  induction rest as [|c rest IH]; intros skip l.
  - destruct skip; [rewrite scan_nil|done].
    destruct (match_at _ _ _ _) as [end_|] eqn:E; [|done].
    apply match_at_reported in E as (w & a & b & Hw & _ & _ & -> & _).
    symmetry in Hw. apply app_eq_nil in Hw as [Hw _].
    exists a, b. by rewrite Hw.
  - destruct skip as [|n]; [rewrite scan_cons|rewrite scan_skip; apply IH].
    destruct (match_at _ _ _ _) as [end_|] eqn:E.
    2:{ apply (in_order_weaken _ [c]), (IH 0). }
    apply match_at_reported in E as (w & a & b & Hw & Hpos & _ & -> & _).
    specialize (IH (pos end_ - 1) (c :: l)). rewrite Hpos in *.
    cbn [drop in_order]. exists a, (b ++ right_ end_).
    split; [by rewrite Hw, <-!app_assoc|].
    destruct (a ++ reported r end_ ++ b) as [|c' w'] eqn:Ew.
    + apply app_eq_nil in Ew as [_ [_ ->]%app_eq_nil].
      cbn [app] in *. rewrite <-Hw. apply (in_order_weaken _ [c]), IH.
    + cbn [app] in Hw. injection Hw as -> ->. cbn [length] in IH.
      rewrite Nat.sub_succ, Nat.sub_0_r, drop_app_length in IH.
      cbn [length]. rewrite Nat.sub_succ, Nat.sub_0_r. by apply in_order_weaken.
Qed.

Lemma in_order_elem ms text m :
  in_order ms text → m ∈ ms → ∃ a b, text = a ++ m ++ b.
Proof.
  revert text. induction ms as [|m' ms IH]; intros text H Hin;
    [by apply elem_of_nil in Hin|].
  destruct H as (a & b & -> & H). apply elem_of_cons in Hin as [->|Hin]; [eauto|].
  destruct (IH _ H Hin) as (a' & b' & ->).
  exists (a ++ m' ++ a'), b'. by rewrite <-!app_assoc.
Qed.

Lemma in_order_take n ms text : in_order ms text → in_order (take n ms) text.
Proof.
  revert n text. induction ms as [|m ms IH]; intros [|n] text H; try done.
  destruct H as (a & b & -> & H). exists a, b. eauto.
Qed.

Lemma chars_of_chars_list (ws : list (list ascii)) :
  Str.chars <$> (Str.of_chars <$> ws) = ws.
Proof.
  induction ws as [|w ws IH]; [done|].
  cbn [fmap list_fmap] in *. by rewrite chars_of_chars, IH.
Qed.

Lemma findall_in_order r s fl : strings_in_order (findall r s fl) s.
Proof.
  unfold strings_in_order. rewrite findall_eq, chars_of_chars_list.
  apply (scan_in_order fl r (Str.chars s) 0 []).
Qed.

Lemma findall_substring r s fl m : m ∈ findall r s fl → substring m s.
Proof.
  intros Hm. pose proof (findall_in_order r s fl) as H.
  apply (in_order_elem _ _ (Str.chars m)) in H as (a & b & Hs).
  - exists (Str.of_chars a), (Str.of_chars b). apply chars_inj.
    by rewrite !chars_app, !chars_of_chars.
  - apply list_elem_of_fmap. eauto.
Qed.

Lemma scan_captured fl r rest skip l m :
  must_capture r = true → m ∈ scan fl r skip l rest → captured fl r m.
Proof.
  intros Hm (pre & rest' & end_ & _ & E & ->)%scan_sound.
  apply match_at_reported in E as (w & a & b & _ & _ & _ & _ & Hc). auto.
Qed.

Lemma findall_captured r s fl m :
  must_capture r = true → m ∈ findall r s fl → captured fl r (Str.chars m).
Proof.
  intros Hm. rewrite findall_eq. intros (w & -> & Hw)%list_elem_of_fmap.
  rewrite chars_of_chars. by eapply scan_captured.
Qed.

(** A value captured by [([^;]+)] has at least one character and no [;]. *)
Lemma captured_value fl r (u : list ascii) :
  ignorecase fl = true →
  group_bodies r = [plus (not_char ";")] →
  captured fl r u → u ≠ [] ∧ ";"%char ∉ u.
Proof.
  intros Hfl Hr (r1 & l & rest & Hin & Hl). rewrite Hr in Hin.
  apply list_elem_of_singleton in Hin as ->.
  cbn [plus lang] in Hl. destruct Hl as [[Hlen _] Hall]. split.
  - intros ->. simpl in Hlen. lia.
  - intros Hin. rewrite Forall_forall in Hall. apply Hall in Hin.
    revert Hin. simpl. rewrite Hfl. done.
Qed.

(** ** Stored values and the text they come from *)

Lemma substring_refl_chars m s :
  (∃ a b, Str.chars s = a ++ Str.chars m ++ b) → substring m s.
Proof.
  intros (a & b & Hs). exists (Str.of_chars a), (Str.of_chars b).
  apply chars_inj. by rewrite !chars_app, !chars_of_chars.
Qed.

(** X3: every stored value is copied from the text.  Each rgb, rgba, margin
    and padding entry is a contiguous part of the CSS text; each hex entry is
    the upper-case form of one, and each font the cleaned form of one. *)
Theorem stored_values_verbatim css :
  ∃ hex rgb rgba margins paddings,
    get "hex" (extract_colors_from_css css) = Some hex
    ∧ get "rgb" (extract_colors_from_css css) = Some rgb
    ∧ get "rgba" (extract_colors_from_css css) = Some rgba
    ∧ get "margins" (extract_spacing_values css) = Some margins
    ∧ get "paddings" (extract_spacing_values css) = Some paddings
    ∧ (∀ x, x ∈ hex → ∃ m, substring m css ∧ x = Str.upper m)
    ∧ (∀ x, x ∈ rgb ∪ rgba ∪ margins ∪ paddings → substring x css)
    ∧ (∀ x, x ∈ extract_fonts_from_css css → ∃ v, substring v css ∧ x = clean v).
Proof.
  eexists _, _, _, _, _.
  split; [apply get_hex|]. split; [apply get_rgb|]. split; [apply get_rgba|].
  split; [apply get_margins|]. split; [apply get_paddings|].
  split; [|split].
  - intros x (m & -> & Hm)%elem_of_list_to_set%list_elem_of_fmap.
    exists m. split; [by eapply findall_substring|done].
  - intros x. rewrite !elem_of_union, !elem_of_list_to_set, !list_elem_of_filter.
    intros [[[[_ H]|[_ H]]|H]|H]; by eapply findall_substring.
  - intros x. rewrite extract_fonts_first_seen, elem_of_first_seen, list_elem_of_fmap.
    intros (v & -> & Hv). exists v. split; [by eapply findall_substring|done].
Qed.

Lemma strings_in_order_take n ms s :
  strings_in_order ms s → strings_in_order (take n ms) s.
Proof. unfold strings_in_order. rewrite fmap_take. apply in_order_take. Qed.

(** X4: the button examples stand in the HTML text one after the other, in
    the order listed and without overlap; so do the examples of each heading
    record. *)
Theorem examples_in_document_order html :
  ∃ components examples,
    analyze_html_structure html = Some components
    ∧ components !! "buttons" = Some (Items (Text <$> examples))
    ∧ strings_in_order examples html
    ∧ (∀ x, x ∈ examples → substring x html)
    ∧ (∀ level examples',
         heading_record html level !! "examples" = Some (Texts examples') →
         strings_in_order examples' html).
Proof.
  eexists _, _. split; [apply analyze_html_closed|]. split; [done|].
  split; [apply strings_in_order_take, findall_in_order|]. split.
  - intros x Hx. eapply findall_substring, elem_of_sublist; [done|].
    apply sublist_take.
  - intros level examples'. unfold heading_record, heading_key.
    rewrite lookup_insert_ne by done. rewrite lookup_singleton_eq.
    intros [= <-]. apply strings_in_order_take, findall_in_order.
Qed.

(** X5: a margin or padding value is never empty and has no [;] in it; a
    font has no [;] in it either. *)
Theorem values_without_semicolon css :
  ∃ margins paddings,
    get "margins" (extract_spacing_values css) = Some margins
    ∧ get "paddings" (extract_spacing_values css) = Some paddings
    ∧ (∀ x, x ∈ margins ∪ paddings →
         x ≠ EmptyString ∧ (";"%char ∉ Str.chars x))
    ∧ (∀ x, x ∈ extract_fonts_from_css css → ";"%char ∉ Str.chars x).
Proof.
  eexists _, _. split; [apply get_margins|]. split; [apply get_paddings|].
  assert (Hv : ∀ r m, group_bodies r = [plus (not_char ";")] →
                      must_capture r = true →
                      m ∈ findall r css IGNORECASE →
                      Str.chars m ≠ [] ∧ (";"%char ∉ Str.chars m)).
  { intros r m Hr Hm Hin. apply (captured_value IGNORECASE r); [done|done|].
    by apply (findall_captured r css). }
  split.
  - intros x. rewrite elem_of_union, !elem_of_list_to_set.
    intros [Hx|Hx]; apply Hv in Hx as [Hne Hs]; try done;
      (split; [by intros ->|done]).
  - intros x. rewrite extract_fonts_first_seen, elem_of_first_seen, list_elem_of_fmap.
    intros (v & -> & Hx). apply Hv in Hx as [_ Hs]; [|done..].
    intros Hc%elem_of_strip. apply elem_of_remove in Hc as [Hc _].
    by apply elem_of_remove in Hc as [Hc _].
Qed.

(** ** How many matches a text can hold *)

Lemma lang_min_length fl r : ∀ l w rest,
  lang fl r l w rest → min_length r ≤ length w.
Proof.
  induction r as [|a| |r1 IH1 r2 IH2|r1 IH1|greedy lo hi a|r1 IH1];
    intros l w rest H; cbn [lang min_length] in *; try lia.
  - destruct H as (c & -> & _). done.
  - destruct H as (w1 & w2 & -> & H1%IH1 & H2%IH2). rewrite length_app. lia.
  - by destruct H as [[? _] _].
  - eauto.
Qed.

(** Matches do not overlap, so a text of [n] characters has at most
    [n / min_length r] of them. *)
Lemma scan_count fl r rest : ∀ skip l,
  min_length r * length (scan fl r skip l rest) ≤ length rest - skip.
Proof.
  induction rest as [|c rest IH]; intros skip l.
  - destruct skip; [rewrite scan_nil|simpl; lia].
    destruct (match_at _ _ _ _) as [end_|] eqn:E; [|simpl; lia].
    apply match_at_sound in E as (w & Hw & Hl%lang_min_length & _).
    symmetry in Hw. apply app_eq_nil in Hw as [-> _]. simpl in *. lia.
  - destruct skip as [|n]; [rewrite scan_cons|rewrite scan_skip; apply IH].
    destruct (match_at _ _ _ _) as [end_|] eqn:E.
    2:{ specialize (IH 0 (c :: l)). simpl in *. lia. }
    apply match_at_sound in E as (w & Hw & Hl%lang_min_length & _ & Hpos).
    specialize (IH (pos end_ - 1) (c :: l)).
    assert (length w ≤ S (length rest)) as Hle.
    { apply (f_equal length) in Hw. rewrite length_app in Hw. simpl in Hw. lia. }
    cbn [length]. nia.
Qed.

Lemma findall_count r s fl :
  min_length r * length (findall r s fl) ≤ String.length s.
Proof.
  rewrite findall_eq, length_fmap, <-length_chars.
  pose proof (scan_count fl r (Str.chars s) 0 []). lia.
Qed.

Lemma length_filter_split (P : string → Prop) `{!∀ x, Decision (P x)}
    (l : list string) :
  length (filter (λ m, ¬ P m) l) + length (filter P l) = length l.
Proof.
  induction l as [|x l IH]; [done|].
  rewrite !filter_cons. repeat case_decide; simpl; first [lia|tauto].
Qed.

Lemma size_filter_split (P : string → Prop) `{!∀ x, Decision (P x)}
    (l : list string) :
  size (list_to_set (filter (λ m, ¬ P m) l) : gset string)
  + size (list_to_set (filter P l) : gset string) ≤ length l.
Proof.
  pose proof (size_list_to_set_le (filter (λ m, ¬ P m) l)).
  pose proof (size_list_to_set_le (filter P l)).
  pose proof (length_filter_split P l). lia.
Qed.

Lemma length_first_seen l : length (first_seen l) ≤ length l.
Proof. apply sublist_length, first_seen_sublist. Qed.

(** X6: the text bounds what can be found in it.  A form takes at least 13
    characters, a navigation element 11 and a heading 9, and matches do not
    overlap: the counts times these lengths do not exceed the length of the
    HTML text.  Likewise a CSS text has at most a quarter of its length in hex
    entries, a tenth in rgb and rgba entries, a ninth (tenth) in margins
    (paddings), and a fourteenth in fonts. *)
Theorem counts_bounded_by_length text :
  (∃ components forms navs,
     analyze_html_structure text = Some components
     ∧ components !! "forms" = Some (Int forms)
     ∧ components !! "navigation" = Some (Int navs)
     ∧ 13 * forms ≤ String.length text
     ∧ 11 * navs ≤ String.length text
     ∧ (∀ level count,
          heading_record text level !! heading_key level = Some (Num count) →
          9 * count ≤ String.length text))
  ∧ (∃ hex rgb rgba margins paddings,
       get "hex" (extract_colors_from_css text) = Some hex
       ∧ get "rgb" (extract_colors_from_css text) = Some rgb
       ∧ get "rgba" (extract_colors_from_css text) = Some rgba
       ∧ get "margins" (extract_spacing_values text) = Some margins
       ∧ get "paddings" (extract_spacing_values text) = Some paddings
       ∧ 4 * size hex ≤ String.length text
       ∧ 10 * (size rgb + size rgba) ≤ String.length text
       ∧ 9 * size margins ≤ String.length text
       ∧ 10 * size paddings ≤ String.length text
       ∧ 14 * length (extract_fonts_from_css text) ≤ String.length text).
Proof.
  split.
  - eexists _, _, _. split; [apply analyze_html_closed|].
    split; [done|]. split; [done|].
    split; [apply (findall_count form_pattern)|].
    split; [apply (findall_count nav_pattern)|].
    intros level count. unfold heading_record. rewrite lookup_insert_eq.
    intros [= <-]. apply (findall_count (heading_pattern level)).
  - eexists _, _, _, _, _.
    split; [apply get_hex|]. split; [apply get_rgb|]. split; [apply get_rgba|].
    split; [apply get_margins|]. split; [apply get_paddings|].
    pose proof (findall_count hex_pattern text no_flags) as Hhex.
    pose proof (findall_count rgb_pattern text no_flags) as Hrgb.
    pose proof (findall_count margin_pattern text IGNORECASE) as Hm.
    pose proof (findall_count padding_pattern text IGNORECASE) as Hp.
    pose proof (findall_count font_pattern text IGNORECASE) as Hf.
    change (min_length hex_pattern) with 4 in Hhex.
    change (min_length rgb_pattern) with 10 in Hrgb.
    change (min_length margin_pattern) with 9 in Hm.
    change (min_length padding_pattern) with 10 in Hp.
    change (min_length font_pattern) with 14 in Hf.
    pose proof (size_list_to_set_le
                  (Str.upper <$> findall hex_pattern text no_flags)) as Shex.
    rewrite length_fmap in Shex.
    pose proof (size_filter_split says_rgba (findall rgb_pattern text no_flags)).
    pose proof (size_list_to_set_le (findall margin_pattern text IGNORECASE)).
    pose proof (size_list_to_set_le (findall padding_pattern text IGNORECASE)).
    rewrite extract_fonts_first_seen.
    pose proof (length_first_seen (clean <$> findall font_pattern text IGNORECASE)) as Sf.
    rewrite length_fmap in Sf.
    repeat split; lia.
Qed.

(** ** The heading records *)

(** X7: there are at most 6 heading records, with distinct keys; each has
    exactly the two keys [h<level>] and [examples], a count of at least 1,
    and as many examples as the count, up to 3 (so at least one). *)
Theorem heading_records_shape html :
  ∃ components levels,
    analyze_html_structure html = Some components
    ∧ components !! "headings"
      = Some (Items (Dict ∘ heading_record html <$> levels))
    ∧ length levels ≤ 6
    ∧ NoDup (heading_key <$> levels)
    ∧ (∀ level, level ∈ levels →
         ∃ count examples,
           heading_record html level
           = {[ heading_key level := Num count; "examples" := Texts examples ]}
           ∧ dom (heading_record html level) = {[ heading_key level; "examples" ]}
           ∧ 1 ≤ count
           ∧ length examples = count `min` 3
           ∧ examples ≠ []).
Proof.
  eexists _, _. split; [apply analyze_html_closed|]. split; [done|].
  split; [etrans; [apply length_filter|done]|]. split.
  - apply (NoDup_fmap_2_strong _).
    + intros x y [_ Hx%elem_of_seq]%list_elem_of_filter
        [_ Hy%elem_of_seq]%list_elem_of_filter [= E].
      apply (f_equal nat_of_ascii) in E.
      rewrite !nat_ascii_embedding in E by lia. lia.
    + apply NoDup_filter, NoDup_seq.
  - intros level [Hne _]%list_elem_of_filter. eexists _, _. split; [done|].
    split; [unfold heading_record; by rewrite dom_insert_L, dom_singleton_L|].
    destruct (headings_at html level) as [|h hs]; [done|].
    split; [simpl; lia|]. split; [rewrite length_take; lia|].
    by destruct hs as [|? [|? ?]].
Qed.

(** ** The names of the colour functions *)

Lemma prefix_chars sub s :
  String.prefix sub s = true ↔ ∃ b, Str.chars s = Str.chars sub ++ b.
Proof.
  revert sub. induction s as [|c s IH]; intros [|d sub]; simpl.
  - split; [by exists []|done].
  - split; [done|]. by intros (b & ?).
  - split; [by eexists|done].
  - destruct (ascii_dec d c) as [->|Hne].
    + rewrite IH. split; intros (b & Hb); exists b; [by rewrite Hb|].
      by injection Hb.
    + split; [done|]. intros (b & [= -> _]). done.
Qed.

Lemma contains_chars sub s :
  Str.contains sub s = true → ∃ a b, Str.chars s = a ++ Str.chars sub ++ b.
Proof.
  induction s as [|c s IH]; cbn [Str.contains]; intros H%orb_true_iff.
  - destruct H as [(b & ?)%prefix_chars|]; [by exists [], b|done].
  - destruct H as [(b & ?)%prefix_chars|(a & b & Hs)%IH]; [by exists [], b|].
    exists (c :: a), b. simpl in *. by rewrite Hs.
Qed.

Lemma prefix_contains sub s : String.prefix sub s = true → Str.contains sub s = true.
Proof. intros H. destruct s; cbn [Str.contains]; by rewrite H. Qed.

Lemma lang_ends_with fl c r : ∀ l w rest,
  (∀ c', atom_ok fl (Lit c) c' = true → c' = c) →
  ends_with c r = true → lang fl r l w rest → last w = Some c.
Proof.
  intros l w rest Hc. revert l w rest.
  induction r as [|a| |r1 IH1 r2 IH2|r1 IH1|greedy lo hi a|r1 IH1];
    intros l w rest He H; cbn [lang ends_with] in *; try done.
  - destruct a as [x| |]; try done. apply bool_decide_eq_true in He as ->.
    by destruct H as (c' & -> & ->%Hc).
  - destruct H as (w1 & w2 & -> & _ & H2). apply IH2 in H2; [|done].
    rewrite last_app, H2. done.
Qed.

Lemma lang_Seq fl r1 r2 l w rest :
  lang fl (Seq r1 r2) l w rest →
  ∃ w1 w2, w = w1 ++ w2 ∧ lang fl r1 l w1 (w2 ++ rest)
           ∧ lang fl r2 (reverse w1 ++ l) w2 rest.
Proof. done. Qed.

Lemma rgb_pattern_name :
  ∃ r', rgb_pattern
        = Seq (Atom (Lit "r")) (Seq (Atom (Lit "g")) (Seq (Atom (Lit "b")) r'))
        ∧ accepts no_flags (Seq (Atom (Lit "g")) (Seq (Atom (Lit "b")) r')) "r" = false
        ∧ ends_with ")" rgb_pattern = true.
Proof. eexists. repeat split; reflexivity. Qed.

(** What every match of the rgb pattern looks like. *)
Lemma findall_rgb_shape css m :
  m ∈ findall rgb_pattern css no_flags →
  ∃ t, Str.chars m = "r"%char :: "g"%char :: "b"%char :: t
       ∧ ("r"%char ∉ t) ∧ last (Str.chars m) = Some ")"%char.
Proof.
  rewrite findall_eq. intros (w & -> & Hw)%list_elem_of_fmap.
  rewrite chars_of_chars.
  apply scan_sound in Hw as (pre & rest & end_ & _ & E & ->).
  apply match_at_sound in E as (w & Hr & Hl & Hleft & Hpos).
  destruct end_ as [l' r' n' g']. cbn [left_ right_ pos] in *. subst l' n'.
  rewrite reported_whole by done.
  destruct rgb_pattern_name as (r3 & E & Hacc & Hend).
  assert (last w = Some ")"%char) as Hlast.
  { eapply (lang_ends_with no_flags); [|done|done]. intros c'. apply lit_ok. }
  rewrite E in Hl.
  apply lang_Seq in Hl as (w1 & w2 & -> & (c1 & -> & ->%lit_ok) & Hl2).
  pose proof (lang_accepts _ _ _ _ _ Hl2) as Hall.
  apply lang_Seq in Hl2 as (w3 & w4 & -> & (c2 & -> & ->%lit_ok) & Hl3).
  apply lang_Seq in Hl3 as (w5 & w6 & -> & (c3 & -> & ->%lit_ok) & Hl4).
  exists w6. split; [done|]. split; [|done].
  intros Hin. rewrite Forall_forall in Hall.
  assert ("r"%char ∈ [ "g"%char ] ++ [ "b"%char ] ++ w6) as Hin' by set_solver.
  apply Hall in Hin'. congruence.
Qed.

(** X8: routing by the substring [rgba] is routing by name.  Every entry of
    the rgba collection begins with [rgba], every entry of the rgb collection
    begins with [rgb] and not with [rgba], and all of them end with [)]. *)
Theorem rgb_routing_by_name css :
  ∃ rgb rgba,
    get "rgb" (extract_colors_from_css css) = Some rgb
    ∧ get "rgba" (extract_colors_from_css css) = Some rgba
    ∧ (∀ x, x ∈ rgba →
         String.prefix "rgba" x = true ∧ last (Str.chars x) = Some ")"%char)
    ∧ (∀ x, x ∈ rgb →
         String.prefix "rgb" x = true ∧ String.prefix "rgba" x = false
         ∧ last (Str.chars x) = Some ")"%char).
Proof.
  eexists _, _. split; [apply get_rgb|]. split; [apply get_rgba|]. split.
  - intros x [Hc Hx]%elem_of_list_to_set%list_elem_of_filter.
    apply findall_rgb_shape in Hx as (t & Ht & Hr & Hlast). split; [|done].
    apply contains_chars in Hc as (a & b & Hab). rewrite Ht in Hab.
    apply prefix_chars. destruct a as [|c a]; [exists b; by rewrite Ht, Hab|].
    exfalso. apply Hr. destruct a as [|? [|? a]]; try discriminate.
    simpl in Hab. injection Hab as _ _ _ ->. set_solver.
  - intros x [Hc Hx]%elem_of_list_to_set%list_elem_of_filter.
    apply findall_rgb_shape in Hx as (t & Ht & Hr & Hlast).
    split; [apply prefix_chars; by exists t; rewrite Ht|]. split; [|done].
    destruct (String.prefix "rgba" x) eqn:E; [|done].
    apply prefix_contains in E. done.
Qed.

(** ** Letter case *)

Lemma is_word_lower c : Chars.is_word (Chars.lower c) = Chars.is_word c.
Proof. by destruct c as [[] [] [] [] [] [] [] []]. Qed.



Lemma lower_lower c : Chars.lower (Chars.lower c) = Chars.lower c.
Proof. by destruct c as [[] [] [] [] [] [] [] []]. Qed.

Lemma upper_lower c : Chars.upper (Chars.lower c) = Chars.upper c.
Proof. by destruct c as [[] [] [] [] [] [] [] []]. Qed.

(** A character without case is the lower-case form of itself only. *)
Lemma lower_eq_caseless c x :
  Chars.lower x = x → Chars.upper x = x → Chars.lower c = x ↔ c = x.
Proof.
  intros Hl Hu. split; [|by intros ->]. intros H.
  destruct (lower_cases c) as [Hc|Hc]; congruence.
Qed.

Lemma atom_ok_lower fl a c :
  ignorecase fl = true → atom_ok fl a (Chars.lower c) = atom_ok fl a c.
Proof.
  intros Hfl. destruct a as [x|neg its|]; simpl; rewrite ?Hfl.
  - by rewrite lower_lower.
  - by rewrite lower_lower, upper_lower.
  - f_equal. f_equal. apply bool_decide_ext. by apply lower_eq_caseless.
Qed.

Lemma case_blind_ignorecase fl r : ignorecase fl = true → case_blind fl r.
Proof. intros Hfl a c _. by apply atom_ok_lower. Qed.


Lemma word_at_lower l : word_at (Chars.lower <$> l) = word_at l.
Proof. destruct l; [done|]. apply is_word_lower. Qed.

Lemma or_else_fmap {A B} (f : A → B) (x y : option A) :
  or_else (f <$> x) (f <$> y) = f <$> or_else x y.
Proof. by destruct x. Qed.

Section Lowering.
Context {A B : Type} (f : A → B).

Lemma repeat_greedy_lower ok lo hi (k : cursor → option A)
    (k' : cursor → option B) r : ∀ l n g,
  (∀ c, ok (Chars.lower c) = ok c) →
  (∀ c, k' (lower_cursor c) = f <$> k c) →
  repeat_greedy ok lo hi k' (Chars.lower <$> l) (Chars.lower <$> r) n
    (fmap (M:=list) Chars.lower <$> g)
  = f <$> repeat_greedy ok lo hi k l r n g.
Proof.
  intros l n g Hok Hk. revert lo hi l n.
  induction r as [|c r IH]; intros lo hi l n; cbn [fmap list_fmap repeat_greedy].
  - destruct lo; [apply (Hk (Cursor l [] n g))|done].
  - rewrite Hok.
    assert (Hstop : match lo with
                    | 0 => k' (Cursor (Chars.lower <$> l)
                                      (Chars.lower c :: (Chars.lower <$> r)) n
                                      (fmap (M:=list) Chars.lower <$> g))
                    | S _ => None
                    end
                    = f <$> match lo with
                            | 0 => k (Cursor l (c :: r) n g)
                            | S _ => None
                            end).
    { destruct lo; [apply (Hk (Cursor l (c :: r) n g))|done]. }
    destruct (ok c && may_repeat hi); [|done].
    specialize (IH (Nat.pred lo) (dec_hi hi) (c :: l) (S n)).
    cbn [fmap list_fmap] in IH. rewrite IH.
    etrans; [|apply or_else_fmap]. by f_equal.
Qed.

Lemma repeat_lazy_lower ok lo hi (k : cursor → option A)
    (k' : cursor → option B) r : ∀ l n g,
  (∀ c, ok (Chars.lower c) = ok c) →
  (∀ c, k' (lower_cursor c) = f <$> k c) →
  repeat_lazy ok lo hi k' (Chars.lower <$> l) (Chars.lower <$> r) n
    (fmap (M:=list) Chars.lower <$> g)
  = f <$> repeat_lazy ok lo hi k l r n g.
Proof.
  intros l n g Hok Hk. revert lo hi l n.
  induction r as [|c r IH]; intros lo hi l n; cbn [fmap list_fmap repeat_lazy].
  - etrans; [|apply or_else_fmap]. f_equal.
    destruct lo; [apply (Hk (Cursor l [] n g))|done].
  - rewrite Hok. etrans; [|apply or_else_fmap]. f_equal.
    + destruct lo; [apply (Hk (Cursor l (c :: r) n g))|done].
    + destruct (ok c && may_repeat hi); [|done].
      apply (IH (Nat.pred lo) (dec_hi hi) (c :: l) (S n)).
Qed.
End Lowering.

(** Matching the lowered text goes the way of matching the text. *)
Lemma run_lower {A B} (f : A → B) fl r :
  case_blind fl r →
  ∀ (k : cursor → option A) (k' : cursor → option B) cur,
    (∀ c, k' (lower_cursor c) = f <$> k c) →
    run fl r k' (lower_cursor cur) = f <$> run fl r k cur.
Proof.
  revert A B f.
  induction r as [|a| |r1 IH1 r2 IH2|r1 IH1|greedy lo hi a|r1 IH1];
    intros A B f Hr k k' [l right n g] Hk; cbn [run].
  - apply Hk.
  - cbn [lower_cursor left_ right_ pos group1].
    destruct right as [|c right]; [done|]. cbn [fmap list_fmap].
    rewrite (Hr a c) by (simpl; set_solver).
    destruct (atom_ok fl a c); [|done]. apply (Hk (Cursor (c :: l) right (S n) g)).
  - unfold at_boundary. cbn [lower_cursor left_ right_ pos group1].
    rewrite !word_at_lower. destruct (xorb _ _); [apply Hk|done].
  - apply IH1; [intros a c Ha; apply Hr; simpl; set_solver|].
    intros c. apply IH2; [intros a c' Ha; apply Hr; simpl; set_solver|done].
  - rewrite (IH1 _ _ f) with (k := k) by done. rewrite Hk. apply or_else_fmap.
  - cbn [lower_cursor left_ right_ pos group1].
    assert (∀ c, atom_ok fl a (Chars.lower c) = atom_ok fl a c) as Hok.
    { intros c. apply Hr. simpl. set_solver. }
    destruct greedy; [by apply repeat_greedy_lower|by apply repeat_lazy_lower].
  - apply IH1; [done|]. intros c. cbn [lower_cursor left_ right_ pos group1].
    rewrite <-(Hk (Cursor (left_ c) (right_ c) (pos c)
                          (Some (reverse (take (pos c - n) (left_ c)))))).
    unfold lower_cursor. cbn [left_ right_ pos group1]. do 2 f_equal.
    change (Some (reverse (take (pos c - n) (Chars.lower <$> left_ c)))
            = Some (Chars.lower <$> reverse (take (pos c - n) (left_ c)))).
    by rewrite fmap_reverse, fmap_take.
Qed.

Lemma match_at_lower fl r l rest :
  case_blind fl r →
  match_at fl r (Chars.lower <$> l) (Chars.lower <$> rest)
  = lower_cursor <$> match_at fl r l rest.
Proof.
  intros Hr. unfold match_at.
  by apply (run_lower lower_cursor fl r Hr Some Some (Cursor l rest 0 None)).
Qed.

Lemma reported_lower r end_ :
  reported r (lower_cursor end_) = Chars.lower <$> reported r end_.
Proof.
  unfold reported. destruct (has_group r).
  - cbn [lower_cursor group1]. by destruct (group1 end_).
  - cbn [lower_cursor pos left_]. by rewrite fmap_reverse, fmap_take.
Qed.

Lemma scan_lower fl r rest : ∀ skip l,
  case_blind fl r →
  scan fl r skip (Chars.lower <$> l) (Chars.lower <$> rest)
  = fmap (M:=list) Chars.lower <$> scan fl r skip l rest.
Proof.
  intros skip l Hr. revert skip l.
  induction rest as [|c rest IH]; intros skip l.
  - destruct skip; [|done].
    change (Chars.lower <$> []) with (@nil ascii). rewrite !scan_nil.
    rewrite (match_at_lower fl r l [] Hr : match_at fl r _ [] = _).
    destruct (match_at fl r l []); [|done]. cbn. by rewrite reported_lower.
  - pose proof (match_at_lower fl r l (c :: rest) Hr) as E.
    rewrite fmap_cons in E |- *. destruct skip as [|n].
    + rewrite !scan_cons, E.
      destruct (match_at fl r l (c :: rest)) as [end_|];
        cbn [fmap option_fmap option_map].
      * rewrite reported_lower. rewrite fmap_cons. f_equal.
        apply (IH (pos end_ - 1) (c :: l)).
      * apply (IH 0 (c :: l)).
    + rewrite !scan_skip. apply (IH n (c :: l)).
Qed.

Lemma chars_lowered s : Str.chars (lowered s) = Chars.lower <$> Str.chars s.
Proof. unfold lowered. apply chars_of_chars. Qed.

(** [re.findall] on the lowered text finds the lowered matches. *)
Lemma findall_lowered r s fl :
  case_blind fl r → findall r (lowered s) fl = lowered <$> findall r s fl.
Proof.
  intros Hr. rewrite !findall_eq, chars_lowered.
  rewrite (scan_lower fl r (Str.chars s) 0 [] Hr : scan fl r 0 [] _ = _).
  rewrite <-!list_fmap_compose. apply list_fmap_ext. intros _ w _. simpl.
  unfold lowered. by rewrite chars_of_chars.
Qed.

Lemma findall_same_case r s1 s2 fl :
  case_blind fl r → same_up_to_case s1 s2 →
  lowered <$> findall r s1 fl = lowered <$> findall r s2 fl.
Proof. intros Hr Hs. by rewrite <-!findall_lowered, Hs. Qed.

Lemma findall_same_length r s1 s2 fl :
  case_blind fl r → same_up_to_case s1 s2 →
  length (findall r s1 fl) = length (findall r s2 fl).
Proof.
  intros Hr Hs. apply (findall_same_case r s1 s2 fl Hr) in Hs.
  apply (f_equal length) in Hs. by rewrite !length_fmap in Hs.
Qed.






(** ** The HTML scan and the spacing and font scans ignore letter case *)

Lemma lowered_fmap_Forall2 l1 : ∀ l2,
  lowered <$> l1 = lowered <$> l2 → Forall2 same_up_to_case l1 l2.
Proof.
  induction l1 as [|x l1 IH]; intros [|y l2] E; try done.
  injection E as Hx Hl. constructor; [done|by apply IH].
Qed.

Lemma findall_Forall2 r s1 s2 fl :
  case_blind fl r → same_up_to_case s1 s2 →
  Forall2 same_up_to_case (findall r s1 fl) (findall r s2 fl).
Proof. intros Hr Hs. by apply lowered_fmap_Forall2, findall_same_case. Qed.

(** X10: [analyze_html_structure] reads tags without regard to letter case.
    On two texts that differ in letter case alone the form and navigation
    counts are equal, the same heading levels have a record, with equal
    counts, and the button and heading examples correspond one to one, equal
    up to letter case. *)
Theorem html_ignores_case html1 html2 :
  same_up_to_case html1 html2 →
  ∃ c1 c2 buttons1 buttons2 levels,
    analyze_html_structure html1 = Some c1
    ∧ analyze_html_structure html2 = Some c2
    ∧ c1 !! "forms" = c2 !! "forms"
    ∧ c1 !! "navigation" = c2 !! "navigation"
    ∧ c1 !! "buttons" = Some (Items (Text <$> buttons1))
    ∧ c2 !! "buttons" = Some (Items (Text <$> buttons2))
    ∧ Forall2 same_up_to_case buttons1 buttons2
    ∧ c1 !! "headings" = Some (Items (Dict ∘ heading_record html1 <$> levels))
    ∧ c2 !! "headings" = Some (Items (Dict ∘ heading_record html2 <$> levels))
    ∧ (∀ level, ∃ count examples1 examples2,
         heading_record html1 level
         = {[ heading_key level := Num count; "examples" := Texts examples1 ]}
         ∧ heading_record html2 level
           = {[ heading_key level := Num count; "examples" := Texts examples2 ]}
         ∧ Forall2 same_up_to_case examples1 examples2).
Proof.
  intros H.
  assert (∀ r, case_blind IGNORECASE_DOTALL r) as Hblind
    by (intros r; by apply case_blind_ignorecase).
  assert (∀ level,
    Forall2 same_up_to_case (headings_at html1 level) (headings_at html2 level))
    as Hh by (intros level; by apply findall_Forall2).
  eexists _, _, _, _, _. split; [apply analyze_html_closed|].
  split; [apply analyze_html_closed|].
  split; [|split; [|split; [done|split; [done|split; [|split; [done|split]]]]]].
  - rewrite !lookup_insert_ne, !lookup_insert_eq by done.
    by rewrite (findall_same_length form_pattern html1 html2).
  - rewrite !lookup_insert_ne, !lookup_insert_eq by done.
    by rewrite (findall_same_length nav_pattern html1 html2).
  - by apply Forall2_take, findall_Forall2.
  - rewrite !lookup_insert_ne by done. rewrite lookup_singleton_eq.
    do 3 f_equal. apply list_filter_iff. intros level.
    pose proof (Hh level) as Hl.
    destruct Hl; split; intros ?; done.
  - intros level. eexists _, _, _. split; [done|]. split.
    + unfold heading_record. by rewrite (Forall2_length _ _ _ (Hh level)).
    + apply Forall2_take, Hh.
Qed.

Lemma html_ignores_case_witness :
  ∃ c1 c2 buttons1 buttons2 levels,
    analyze_html_structure "<H1>News</H1><FORM></FORM>" = Some c1
    ∧ analyze_html_structure "<h1>NEWS</h1><form></form>" = Some c2
    ∧ c1 !! "forms" = c2 !! "forms"
    ∧ c1 !! "navigation" = c2 !! "navigation"
    ∧ c1 !! "buttons" = Some (Items (Text <$> buttons1))
    ∧ c2 !! "buttons" = Some (Items (Text <$> buttons2))
    ∧ Forall2 same_up_to_case buttons1 buttons2
    ∧ c1 !! "headings"
      = Some (Items (Dict ∘ heading_record "<H1>News</H1><FORM></FORM>"
                     <$> levels))
    ∧ c2 !! "headings"
      = Some (Items (Dict ∘ heading_record "<h1>NEWS</h1><form></form>"
                     <$> levels))
    ∧ (∀ level, ∃ count examples1 examples2,
         heading_record "<H1>News</H1><FORM></FORM>" level
         = {[ heading_key level := Num count; "examples" := Texts examples1 ]}
         ∧ heading_record "<h1>NEWS</h1><form></form>" level
           = {[ heading_key level := Num count; "examples" := Texts examples2 ]}
         ∧ Forall2 same_up_to_case examples1 examples2).
Proof. apply html_ignores_case. reflexivity. Defined.







